(** * uthread: a shallow embedding of src/uthread.c

    The C heap is a finite map from addresses to typed objects (thread
    records, ucontext_t objects, stack blocks and the queue).  Pointer
    values distinguish NULL, an address, and an indeterminate value (a
    field of freshly malloc'd memory that was never written).  The library
    functions run in a state/error monad whose outcomes are: normal return,
    undefined behaviour, process exit, a setcontext that never returns,
    a blocked sem_wait, and an exhausted loop fuel (a loop still running). *)

From Stdlib Require Import ZArith Lia.
From stdpp Require Import base gmap list.

Open Scope Z_scope.

(** ** Data model *)

Inductive pval :=
| Null
| Ptr (a : nat)
| Indet.

(** [typedef struct node { ... } uthread_t;]  The function pointer is a
    function identifier. *)
Record uthread_t := mk_uthread {
  priority : Z;
  func : nat;
  context : pval;
  next : pval;
  prev : pval
}.

(** The parts of a ucontext_t the library touches: uc_stack.ss_sp,
    uc_stack.ss_size, and the entry function bound by makecontext. *)
Record ucontext_t := mk_ucontext {
  ss_sp : pval;
  ss_size : Z;
  uc_entry : option nat
}.

(** [typedef struct queue { ... } queue_t;] *)
Record queue_t := mk_queue {
  head : pval;
  size : Z;
  active : pval
}.

Inductive obj :=
| ONode (t : uthread_t)
| OCtx (c : ucontext_t)
| OStack
| OQueue (q : queue_t).

Record state := mk_state {
  heap : gmap nat obj;
  oom : list bool;             (** malloc oracle: [true] = this malloc returns NULL *)
  lock : option Z;             (** [sem_t lock]; None when not initialised or destroyed *)
  thread_queue : pval;         (** [queue_t *thread_queue], a zero-initialised global *)
  swaps : list (pval * pval)   (** swapcontext calls made so far (saved, resumed) *)
}.

Definition STACK_SIZE : Z := 16384.
Definition INT_MAX : Z := 2147483647.

Inductive res (A : Type) :=
| ROk (a : A) (s : state)
| RUB
| RExit (code : Z) (s : state)
| RJump (ctx : pval) (s : state)
| RBlock
| RNoFuel.
Arguments ROk {A} a s.
Arguments RUB {A}.
Arguments RExit {A} code s.
Arguments RJump {A} ctx s.
Arguments RBlock {A}.
Arguments RNoFuel {A}.

Definition M (A : Type) : Type := state -> res A.

Global Instance M_ret : MRet M := fun A a s => ROk a s.
Global Instance M_bind : MBind M := fun A B f m s =>
  match m s with
  | ROk a s' => f a s'
  | RUB => RUB
  | RExit c s' => RExit c s'
  | RJump c s' => RJump c s'
  | RBlock => RBlock
  | RNoFuel => RNoFuel
  end.

Definition ub {A} : M A := fun _ => RUB.
Definition nofuel {A} : M A := fun _ => RNoFuel.

(** ** Heap primitives *)

Definition set_heap (h : gmap nat obj) (s : state) : state :=
  mk_state h (oom s) (lock s) (thread_queue s) (swaps s).

Definition fresh_addr (s : state) : nat := fresh (dom (heap s)).

(** [malloc]: consults the oracle, then allocates an object at a fresh
    address.  Freshly allocated structs hold indeterminate pointers; their
    int fields are written before any read on every path of the code. *)
Definition malloc (o : obj) : M pval := fun s =>
  match oom s with
  | true :: rest => ROk Null (mk_state (heap s) rest (lock s) (thread_queue s) (swaps s))
  | l =>
      let a := fresh_addr s in
      ROk (Ptr a) (mk_state (<[a := o]> (heap s)) (tail l) (lock s) (thread_queue s) (swaps s))
  end.

Definition free (p : pval) : M unit := fun s =>
  match p with
  | Null => ROk tt s
  | Indet => RUB
  | Ptr a =>
      match heap s !! a with
      | Some _ => ROk tt (set_heap (delete a (heap s)) s)
      | None => RUB
      end
  end.

Definition load_node (p : pval) : M uthread_t := fun s =>
  match p with
  | Ptr a => match heap s !! a with Some (ONode t) => ROk t s | _ => RUB end
  | _ => RUB
  end.

Definition store_node (p : pval) (t : uthread_t) : M unit := fun s =>
  match p with
  | Ptr a => match heap s !! a with
             | Some (ONode _) => ROk tt (set_heap (<[a := ONode t]> (heap s)) s)
             | _ => RUB end
  | _ => RUB
  end.

Definition set_priority_f (t : uthread_t) v := mk_uthread v (func t) (context t) (next t) (prev t).
Definition set_func_f (t : uthread_t) v := mk_uthread (priority t) v (context t) (next t) (prev t).
Definition set_context_f (t : uthread_t) v := mk_uthread (priority t) (func t) v (next t) (prev t).
Definition set_next_f (t : uthread_t) v := mk_uthread (priority t) (func t) (context t) v (prev t).
Definition set_prev_f (t : uthread_t) v := mk_uthread (priority t) (func t) (context t) (next t) v.

(** [p->next] and [p->next = v], and the other fields. *)
Definition get_next (p : pval) : M pval := t ← load_node p; mret (next t).
Definition get_prev (p : pval) : M pval := t ← load_node p; mret (prev t).
Definition get_priority (p : pval) : M Z := t ← load_node p; mret (priority t).
Definition get_context (p : pval) : M pval := t ← load_node p; mret (context t).
Definition get_func (p : pval) : M nat := t ← load_node p; mret (func t).
Definition set_next (p v : pval) : M unit := t ← load_node p; store_node p (set_next_f t v).
Definition set_prev (p v : pval) : M unit := t ← load_node p; store_node p (set_prev_f t v).
Definition set_priority (p : pval) (v : Z) : M unit := t ← load_node p; store_node p (set_priority_f t v).
Definition set_func (p : pval) (v : nat) : M unit := t ← load_node p; store_node p (set_func_f t v).
Definition set_context (p v : pval) : M unit := t ← load_node p; store_node p (set_context_f t v).

Definition load_ctx (p : pval) : M ucontext_t := fun s =>
  match p with
  | Ptr a => match heap s !! a with Some (OCtx c) => ROk c s | _ => RUB end
  | _ => RUB
  end.

Definition store_ctx (p : pval) (c : ucontext_t) : M unit := fun s =>
  match p with
  | Ptr a => match heap s !! a with
             | Some (OCtx _) => ROk tt (set_heap (<[a := OCtx c]> (heap s)) s)
             | _ => RUB end
  | _ => RUB
  end.

(** [thread_queue->field] goes through the global pointer. *)
Definition get_queue : M queue_t := fun s =>
  match thread_queue s with
  | Ptr a => match heap s !! a with Some (OQueue q) => ROk q s | _ => RUB end
  | _ => RUB
  end.

Definition put_queue (q : queue_t) : M unit := fun s =>
  match thread_queue s with
  | Ptr a => match heap s !! a with
             | Some (OQueue _) => ROk tt (set_heap (<[a := OQueue q]> (heap s)) s)
             | _ => RUB end
  | _ => RUB
  end.

Definition set_head (v : pval) : M unit :=
  q ← get_queue; put_queue (mk_queue v (size q) (active q)).
Definition set_size (v : Z) : M unit :=
  q ← get_queue; put_queue (mk_queue (head q) v (active q)).
Definition set_active (v : pval) : M unit :=
  q ← get_queue; put_queue (mk_queue (head q) (size q) v).

(** [a == b] on pointers; reading an indeterminate pointer is undefined. *)
Definition ptr_eq (a b : pval) : M bool := fun s =>
  match a, b with
  | Null, Null => ROk true s
  | Ptr x, Ptr y => ROk (Nat.eqb x y) s
  | Null, Ptr _ | Ptr _, Null => ROk false s
  | _, _ => RUB
  end.

(** ** Semaphore and context primitives *)

Definition set_lock (v : option Z) (s : state) : state :=
  mk_state (heap s) (oom s) v (thread_queue s) (swaps s).

Definition sem_init (v : Z) : M unit := fun s => ROk tt (set_lock (Some v) s).
Definition sem_wait : M unit := fun s =>
  match lock s with
  | Some v => if 0 <? v then ROk tt (set_lock (Some (v - 1)) s) else RBlock
  | None => RUB
  end.
Definition sem_post : M unit := fun s =>
  match lock s with
  | Some v => ROk tt (set_lock (Some (v + 1)) s)
  | None => RUB
  end.
Definition sem_destroy : M unit := fun s =>
  match lock s with
  | Some _ => ROk tt (set_lock None s)
  | None => RUB
  end.

(** [getcontext(c)] captures the caller's context into [*c]. *)
Definition getcontext (c : pval) : M unit :=
  _ ← load_ctx c; store_ctx c (mk_ucontext Null 0 None).

(** The initial frame that [makecontext] writes at the top of the stack
    [p] (at [ss_sp + ss_size]): undefined unless [p] points to an
    allocated stack. *)
Definition stack_frame (p : pval) : M unit := fun s =>
  match p with
  | Ptr a => match heap s !! a with Some OStack => ROk tt s | _ => RUB end
  | _ => RUB
  end.

(** [makecontext(c, f, 0)] sets up the stack of [*c] for a call of [f]
    and binds [f] as the entry of [*c]. *)
Definition makecontext (c : pval) (f : nat) : M unit :=
  uc ← load_ctx c;
  stack_frame (ss_sp uc) ;;
  store_ctx c (mk_ucontext (ss_sp uc) (ss_size uc) (Some f)).

(** [swapcontext(o, i)]: saves into [*o] and resumes [*i]; the caller
    continues here when it is switched back to. *)
Definition swapcontext (o i : pval) : M unit := fun s =>
  match load_ctx o s, load_ctx i s with
  | ROk _ _, ROk _ _ =>
      ROk tt (mk_state (heap s) (oom s) (lock s) (thread_queue s) (swaps s ++ [(o, i)]))
  | _, _ => RUB
  end.

(** [setcontext(c)] never returns. *)
Definition setcontext (c : pval) : M unit := fun s =>
  match load_ctx c s with
  | ROk _ _ => RJump c s
  | _ => RUB
  end.

Definition c_exit (code : Z) : M unit := fun s => RExit code s.

(** ** Thread queue operations *)

(** [static void add(queue_t **queue, uthread_t *item)]; [size++] on an int
    that already holds INT_MAX is a signed overflow. *)
Definition add (item : pval) : M unit :=
  q ← get_queue;
  (if Z.eqb (size q) 0 then
     set_head item ;;
     set_next item item ;;
     set_prev item item
   else if Z.eqb (size q) 1 then
     q ← get_queue; set_next item (head q) ;;
     q ← get_queue; set_prev item (head q) ;;
     q ← get_queue; set_next (head q) item ;;
     q ← get_queue; set_prev (head q) item
   else
     q ← get_queue; hn ← get_next (head q); set_prev hn item ;;
     q ← get_queue; hn ← get_next (head q); set_next item hn ;;
     q ← get_queue; set_prev item (head q) ;;
     q ← get_queue; set_next (head q) item) ;;
  q ← get_queue;
  if Z.eqb (size q) INT_MAX then ub else set_size (size q + 1).

(** The scan loop of get_priority_thread:
    [while (curr->prev != ( *queue)->head) { curr = curr->prev; ... }]
    returning [(priority_node, highest_priority)]. *)
Fixpoint scan (fuel : nat) (curr pn : pval) (hp : Z) : M (pval * Z) :=
  match fuel with
  | O => nofuel
  | S f =>
      cp ← get_prev curr;
      q ← get_queue;
      at_head ← ptr_eq cp (head q);
      if (at_head : bool) then mret (pn, hp)
      else
        curr' ← get_prev curr;
        pr ← get_priority curr';
        if pr <? hp then scan f curr' curr' pr else scan f curr' pn hp
  end.

(** [static uthread_t* get_priority_thread(queue_t **queue)] *)
Definition get_priority_thread (fuel : nat) : M pval :=
  q ← get_queue;
  if Z.eqb (size q) 0 then mret Null
  else if Z.eqb (size q) 1 then
    q ← get_queue;
    let curr := head q in
    set_head Null ;;
    set_size 0 ;;
    mret curr
  else
    q ← get_queue;
    let curr := head q in
    hp ← get_priority curr;
    '(pn, _) ← scan fuel curr curr hp;
    q ← get_queue;
    is_head ← ptr_eq pn (head q);
    (if (is_head : bool) then pp ← get_prev pn; set_head pp else mret tt) ;;
    pp ← get_prev pn; pnx ← get_next pn; set_next pp pnx ;;
    pnx ← get_next pn; pp ← get_prev pn; set_prev pnx pp ;;
    q ← get_queue;
    set_size (size q - 1) ;;
    mret pn.

(** [static void cleanup_queue(queue_t *queue)]: the free loop. *)
Fixpoint cleanup_loop (fuel : nat) (curr : pval) : M unit :=
  match fuel with
  | O => nofuel
  | S f =>
      match curr with
      | Null => mret tt
      | Indet => ub
      | Ptr _ =>
          let to_free := curr in
          nx ← get_next curr;
          free to_free ;;
          cleanup_loop f nx
      end
  end.

Definition cleanup_queue (fuel : nat) (queue : pval) : M unit :=
  q ← get_queue;
  cleanup_loop fuel (head q) ;;
  q ← get_queue;
  free (active q) ;;
  free queue.

(** ** Library implementation *)

Definition set_thread_queue (v : pval) (s : state) : state :=
  mk_state (heap s) (oom s) (lock s) v (swaps s).

(** [void system_init()] *)
Definition system_init : M unit :=
  tq ← malloc (OQueue (mk_queue Indet 0 Indet));
  (fun s => ROk tt (set_thread_queue tq s)) ;;
  set_size 0 ;;
  sem_init 1.

(** [int uthread_create(void func(), int priority)] *)
Definition uthread_create (f : nat) (prio : Z) : M Z :=
  thread ← malloc (ONode (mk_uthread 0 0 Indet Indet Indet));
  match thread with
  | Null => mret (-1)
  | _ =>
    set_priority thread prio ;;
    set_func thread f ;;
    c ← malloc (OCtx (mk_ucontext Indet 0 None));
    set_context thread c ;;
    c ← get_context thread;
    match c with
    | Null => mret (-1)
    | _ =>
      c ← get_context thread;
      getcontext c ;;
      sp ← malloc OStack;
      c ← get_context thread;
      uc ← load_ctx c; store_ctx c (mk_ucontext sp (ss_size uc) (uc_entry uc)) ;;
      c ← get_context thread;
      uc ← load_ctx c; store_ctx c (mk_ucontext (ss_sp uc) STACK_SIZE (uc_entry uc)) ;;
      c ← get_context thread;
      fn ← get_func thread;
      makecontext c fn ;;
      sem_wait ;;
      add thread ;;
      sem_post ;;
      mret 0
    end
  end.

(** [int uthread_yield(int priority)] *)
Definition uthread_yield (fuel : nat) (prio : Z) : M Z :=
  sem_wait ;;
  q ← get_queue;
  if Z.eqb (size q) 0 then
    sem_post ;; mret (-1)
  else
    q ← get_queue;
    set_priority (active q) prio ;;
    thread ← get_priority_thread fuel;
    q ← get_queue;
    let save := active q in
    add save ;;
    set_active thread ;;
    sem_post ;;
    sc ← get_context save;
    tc ← get_context thread;
    swapcontext sc tc ;;
    mret 0.

(** [void uthread_exit()] *)
Definition uthread_exit (fuel : nat) : M unit :=
  sem_wait ;;
  q ← get_queue;
  if Z.eqb (size q) 0 then
    sem_post ;;
    tq ← (fun s => ROk (thread_queue s) s);
    cleanup_queue fuel tq ;;
    sem_destroy ;;
    c_exit 0
  else
    thread ← get_priority_thread fuel;
    q ← get_queue;
    free (active q) ;;
    set_active thread ;;
    sem_post ;;
    c ← get_context thread;
    setcontext c.

Definition init_state : state := mk_state ∅ [] None Null [].

(** ** Abstraction of the ring

    The ready ring is described by the list of its records in the order the
    scan of get_priority_thread visits them: from [head] following [prev].
    [chain h L] says that consecutive records of [L] are linked both ways. *)

Definition node_at (h : gmap nat obj) (x : nat) : option uthread_t :=
  match h !! x with Some (ONode t) => Some t | _ => None end.
Definition prev_of (h : gmap nat obj) (x : nat) : option pval := prev <$> node_at h x.
Definition next_of (h : gmap nat obj) (x : nat) : option pval := next <$> node_at h x.
Definition prio_of (h : gmap nat obj) (x : nat) : Z :=
  match node_at h x with Some t => priority t | None => 0 end.
Definition ctx_of (h : gmap nat obj) (x : nat) : option pval := context <$> node_at h x.

Fixpoint chain (h : gmap nat obj) (L : list nat) : Prop :=
  match L with
  | a :: ((b :: _) as L') =>
      prev_of h a = Some (Ptr b) /\ next_of h b = Some (Ptr a) /\ chain h L'
  | _ => True
  end.

Definition queue_at (tq : pval) (h : gmap nat obj) : option queue_t :=
  match tq with
  | Ptr a => match h !! a with Some (OQueue q) => Some q | _ => None end
  | _ => None
  end.

Definition queue_of (s : state) : option queue_t := queue_at (thread_queue s) (heap s).

(** The ring invariant: the ring holds the records [P] (scan order),
    [size] is their number, [head] is the first, and following [prev]
    from [head] (or [next] backwards) goes once around them. *)
Definition ring (s : state) (P : list nat) : Prop :=
  exists q, queue_of s = Some q /\ size q = Z.of_nat (length P) /\ NoDup P /\
    match P with
    | [] => True
    | hd :: _ => head q = Ptr hd /\ chain (heap s) (P ++ [hd])
    end.

(** The record the scan selects: the first of the minimal priority among
    the records in scan order (strict [<] against the running minimum). *)
Fixpoint sel_from (pr : nat -> Z) (best : nat) (L : list nat) : nat :=
  match L with
  | [] => best
  | x :: L' => if pr x <? pr best then sel_from pr x L' else sel_from pr best L'
  end.

Definition upd_node (h : gmap nat obj) (x : nat) (f : uthread_t -> uthread_t) : gmap nat obj :=
  match h !! x with Some (ONode t) => <[x := ONode (f t)]> h | _ => h end.

Definition is_node (h : gmap nat obj) (x : nat) : Prop := exists t, node_at h x = Some t.

(** The heap after [put_queue q]. *)
Definition qset (tq : pval) (h : gmap nat obj) (q : queue_t) : gmap nat obj :=
  match tq with Ptr a => <[a := OQueue q]> h | _ => h end.

(** [s'] differs from [s] at most in the links of records and in the
    [head] and [size] fields of the queue. *)
Definition only_links (s s' : state) : Prop :=
  thread_queue s' = thread_queue s /\ lock s' = lock s /\ oom s' = oom s /\
  swaps s' = swaps s /\
  forall y, match heap s !! y, heap s' !! y with
            | Some (ONode t), Some (ONode t') =>
                priority t' = priority t /\ func t' = func t /\ context t' = context t
            | Some (OQueue q), Some (OQueue q') => active q' = active q
            | o, o' => o' = o
            end.

(** Every record of [L] has a context object: [ctx_ok h x] says that
    [x->context] points to an allocated [ucontext_t]. *)
Definition ctx_ok (h : gmap nat obj) (x : nat) : Prop :=
  exists c uc, ctx_of h x = Some (Ptr c) /\ h !! c = Some (OCtx uc).

(** The [next] links of [L] alone: for consecutive [a], [b] of [L],
    [b->next == a]. *)
Fixpoint next_chain (h : gmap nat obj) (L : list nat) : Prop :=
  match L with
  | a :: ((b :: _) as L') => next_of h b = Some (Ptr a) /\ next_chain h L'
  | _ => True
  end.

(** Following [prev] (resp. [next]) [n] times from [x]: the records left
    on the way and the record reached. *)
Fixpoint walk_prev (h : gmap nat obj) (x : nat) (n : nat) : option (list nat * nat) :=
  match n with
  | O => Some ([], x)
  | S n' =>
      match prev_of h x with
      | Some (Ptr y) => match walk_prev h y n' with Some (L, z) => Some (x :: L, z) | None => None end
      | _ => None
      end
  end.

Fixpoint walk_next (h : gmap nat obj) (x : nat) (n : nat) : option (list nat * nat) :=
  match n with
  | O => Some ([], x)
  | S n' =>
      match next_of h x with
      | Some (Ptr y) => match walk_next h y n' with Some (L, z) => Some (x :: L, z) | None => None end
      | _ => None
      end
  end.

(** The ring in the words of the documentation: [size] is non-negative and,
    when it is not zero, following [next] [size] times from [head] visits
    [size] distinct records and comes back to [head]; from each of them,
    following [prev] or [next] [size] times visits the same records and
    comes back to it. *)
Definition circular (s : state) : Prop :=
  exists q, queue_of s = Some q /\ 0 <= size q /\
    (size q <> 0 ->
     exists hd L, head q = Ptr hd /\
       walk_next (heap s) hd (Z.to_nat (size q)) = Some (L, hd) /\ NoDup L /\
       forall x, x ∈ L ->
         exists L1 L2, walk_prev (heap s) x (Z.to_nat (size q)) = Some (L1, x) /\ L1 ≡ₚ L /\
                       walk_next (heap s) x (Z.to_nat (size q)) = Some (L2, x) /\ L2 ≡ₚ L).

(** ** Scenarios *)

Definition state_of (r : res unit) : state :=
  match r with ROk _ s => s | _ => init_state end.

(** [system_init()] on an empty heap. *)
Definition init_done : state := state_of (system_init init_state).

(** [system_init(); uthread_create(f1, 9); uthread_create(f2, 5);]:
    two ready records, at addresses 1 (priority 9) and 4 (priority 5). *)
Definition two_ready : M unit :=
  system_init ;; _ ← uthread_create 1 9; _ ← uthread_create 2 5; mret tt.

(** The record of priority 5 dispatched the way uthread_yield and
    uthread_exit dispatch (selected by get_priority_thread, then made
    [active]); the record of priority 9 stays ready. *)
Definition one_running : M unit :=
  two_ready ;; t ← get_priority_thread 10; set_active t.

(** A single record, dispatched the same way: the ring is empty. *)
Definition last_running : M unit :=
  system_init ;; _ ← uthread_create 1 9; t ← get_priority_thread 10; set_active t.

(** [main] of src/uthread_test.c, with [do_something] as entry 1. *)
Definition test_main : M unit :=
  system_init ;; _ ← uthread_create 1 2; uthread_exit 10.

(** Two spawns of equal priority, at addresses 1 and 4. *)
Definition tie_ready : M unit :=
  system_init ;; _ ← uthread_create 1 5; _ ← uthread_create 2 5; mret tt.

(** The same spawns, then a yield at priority 5 from the initial thread. *)
Definition tie_yield : M Z := tie_ready ;; uthread_yield 10 5.

(** The same spawns and yield from a running spawned thread (record 1,
    context 2); the two new records are at 4 (context 5) and 7. *)
Definition tie_from_thread : M Z :=
  last_running ;; _ ← uthread_create 2 5; _ ← uthread_create 3 5; uthread_yield 10 5.

Definition two_ready_state : state := state_of (two_ready init_state).
Definition one_running_state : state := state_of (one_running init_state).
Definition last_running_state : state := state_of (last_running init_state).
Definition tie_ready_state : state := state_of (tie_ready init_state).

(** The allocator fails its fourth request: the one for the new stack. *)
Definition stack_oom_state : state := mk_state ∅ [false; false; false; true] None Null [].

(** [m] either faults or returns with the queue pointer and the queue
    object untouched. *)
Definition keeps_queue {A} (m : M A) : Prop :=
  forall s, m s = RUB \/
    exists a s', m s = ROk a s' /\ thread_queue s' = thread_queue s /\ queue_of s' = queue_of s.

(** ** Heap lemmas *)

Section HeapLemmas.

Lemma node_at_upd_eq h x f t :
  node_at h x = Some t -> node_at (upd_node h x f) x = Some (f t).
Proof.
  unfold node_at, upd_node. destruct (h !! x) as [[]|] eqn:E; try discriminate.
  intros [= ->]. by rewrite lookup_insert_eq.
Qed.

Lemma node_at_upd_ne h x y f :
  x <> y -> node_at (upd_node h x f) y = node_at h y.
Proof.
  unfold node_at, upd_node. intros Hne.
  destruct (h !! x) as [[]|]; try reflexivity. by rewrite lookup_insert_ne.
Qed.

Lemma upd_node_none h x f : node_at h x = None -> upd_node h x f = h.
Proof. unfold node_at, upd_node. by destruct (h !! x) as [[]|]. Qed.

Lemma node_at_queue h a q q' y :
  h !! a = Some (OQueue q) -> node_at (<[a := OQueue q']> h) y = node_at h y.
Proof.
  unfold node_at. intros Ha. destruct (decide (a = y)) as [->|Hne].
  - by rewrite lookup_insert_eq, Ha.
  - by rewrite lookup_insert_ne.
Qed.

Lemma upd_node_queue h x f a :
  (exists q, h !! a = Some (OQueue q)) -> (exists q, upd_node h x f !! a = Some (OQueue q)).
Proof.
  unfold upd_node. intros [q Hq]. destruct (h !! x) as [[]|] eqn:E; eauto.
  destruct (decide (x = a)) as [->|Hne]; [congruence|].
  rewrite lookup_insert_ne; eauto.
Qed.

Lemma upd_node_queue_eq h x f a q :
  h !! a = Some (OQueue q) -> upd_node h x f !! a = Some (OQueue q).
Proof.
  unfold upd_node. intros Hq. destruct (h !! x) as [[]|] eqn:E; auto.
  destruct (decide (x = a)) as [->|Hne]; [congruence|].
  by rewrite lookup_insert_ne.
Qed.

End HeapLemmas.

Section ChainLemmas.

Lemma chain_cons2 h a b L :
  chain h (a :: b :: L) <->
  prev_of h a = Some (Ptr b) /\ next_of h b = Some (Ptr a) /\ chain h (b :: L).
Proof. reflexivity. Qed.

Lemma prev_of_upd_ne h x y f : x <> y -> prev_of (upd_node h x f) y = prev_of h y.
Proof. intros H. unfold prev_of. by rewrite node_at_upd_ne. Qed.

Lemma next_of_upd_ne h x y f : x <> y -> next_of (upd_node h x f) y = next_of h y.
Proof. intros H. unfold next_of. by rewrite node_at_upd_ne. Qed.

Lemma prev_of_upd_keep h x y f :
  (forall t, prev (f t) = prev t) -> prev_of (upd_node h x f) y = prev_of h y.
Proof.
  intros Hf. destruct (decide (x = y)) as [->|Hne]; [|by apply prev_of_upd_ne].
  unfold prev_of. destruct (node_at h y) as [t|] eqn:E.
  - rewrite (node_at_upd_eq _ _ _ t E). simpl. by rewrite Hf.
  - by rewrite (upd_node_none _ _ _ E), E.
Qed.

Lemma next_of_upd_keep h x y f :
  (forall t, next (f t) = next t) -> next_of (upd_node h x f) y = next_of h y.
Proof.
  intros Hf. destruct (decide (x = y)) as [->|Hne]; [|by apply next_of_upd_ne].
  unfold next_of. destruct (node_at h y) as [t|] eqn:E.
  - rewrite (node_at_upd_eq _ _ _ t E). simpl. by rewrite Hf.
  - by rewrite (upd_node_none _ _ _ E), E.
Qed.

Lemma prev_of_upd_prev_eq h x v t :
  node_at h x = Some t -> prev_of (upd_node h x (fun t => set_prev_f t v)) x = Some v.
Proof. intros E. unfold prev_of. by rewrite (node_at_upd_eq _ _ _ t E). Qed.

Lemma next_of_upd_next_eq h x v t :
  node_at h x = Some t -> next_of (upd_node h x (fun t => set_next_f t v)) x = Some v.
Proof. intros E. unfold next_of. by rewrite (node_at_upd_eq _ _ _ t E). Qed.

Lemma chain_frame h h' L :
  (forall x, x ∈ L -> prev_of h' x = prev_of h x /\ next_of h' x = next_of h x) ->
  chain h L -> chain h' L.
Proof.
  induction L as [|a L IH]; [done|]. intros Hfr.
  destruct L as [|b L']; [done|]. rewrite !chain_cons2. intros (H1 & H2 & H3).
  destruct (Hfr a) as [-> _]; [set_solver|]. destruct (Hfr b) as [_ ->]; [set_solver|].
  split; [done|]. split; [done|]. apply IH; [|done]. intros x Hx. apply Hfr. set_solver.
Qed.

Lemma chain_upd_notin h L x f : x ∉ L -> chain h L -> chain (upd_node h x f) L.
Proof.
  intros Hx. apply chain_frame. intros y Hy.
  rewrite prev_of_upd_ne, next_of_upd_ne by set_solver. done.
Qed.

Lemma chain_upd_keep h L x f :
  (forall t, prev (f t) = prev t) -> (forall t, next (f t) = next t) ->
  chain h L -> chain (upd_node h x f) L.
Proof.
  intros Hp Hn. apply chain_frame. intros y _.
  rewrite prev_of_upd_keep, next_of_upd_keep by done. done.
Qed.

Lemma chain_app h L1 a L2 :
  chain h (L1 ++ a :: L2) <-> chain h (L1 ++ [a]) /\ chain h (a :: L2).
Proof.
  induction L1 as [|x L1 IH]; cbn [app].
  - simpl. tauto.
  - destruct L1 as [|y L1']; cbn [app].
    + rewrite !chain_cons2. simpl. tauto.
    + rewrite !chain_cons2. cbn [app] in IH. rewrite IH. tauto.
Qed.

(** Changing the [prev] link of the last record does not touch [chain]. *)
Lemma chain_prev_last h L z v :
  z ∉ L -> chain h (L ++ [z]) -> chain (upd_node h z (fun t => set_prev_f t v)) (L ++ [z]).
Proof.
  induction L as [|x L IH]; [done|]. intros Hz.
  destruct L as [|y L']; cbn [app].
  - rewrite !chain_cons2. intros (H1 & H2 & _). rewrite prev_of_upd_ne by set_solver.
    rewrite next_of_upd_keep by done. done.
  - rewrite !chain_cons2. intros (H1 & H2 & H3). rewrite prev_of_upd_ne by set_solver.
    rewrite next_of_upd_ne by set_solver. split; [done|]. split; [done|].
    apply (IH ltac:(set_solver) H3).
Qed.

(** Changing the [next] link of the first record does not touch [chain]. *)
Lemma chain_next_first h L z v :
  z ∉ L -> chain h (z :: L) -> chain (upd_node h z (fun t => set_next_f t v)) (z :: L).
Proof.
  intros Hz. destruct L as [|y L']; [done|]. rewrite !chain_cons2. intros (H1 & H2 & H3).
  rewrite prev_of_upd_keep by done. rewrite next_of_upd_ne by set_solver.
  split; [done|]. split; [done|]. apply chain_upd_notin; [set_solver|done].
Qed.

Lemma chain_link h L1 a b L2 :
  chain h (L1 ++ a :: b :: L2) -> prev_of h a = Some (Ptr b) /\ next_of h b = Some (Ptr a).
Proof. rewrite chain_app, chain_cons2. tauto. Qed.

Lemma chain_nodes h L x :
  chain h L -> (1 < length L)%nat -> x ∈ L -> exists t, node_at h x = Some t.
Proof.
  induction L as [|a L IH]; [simpl; lia|]. intros Hc Hl Hx.
  destruct L as [|b L']; [simpl in Hl; lia|]. rewrite chain_cons2 in Hc. destruct Hc as (H1 & H2 & H3).
  apply elem_of_cons in Hx as [->|Hx].
  - unfold prev_of in H1. destruct (node_at h a); [eauto|discriminate].
  - destruct L' as [|c L''].
    + apply list_elem_of_singleton in Hx. rewrite Hx. unfold next_of in H2.
      destruct (node_at h b); [eauto|discriminate].
    + apply IH; [done|simpl; lia|done].
Qed.

End ChainLemmas.

Section Exec.

Lemma bind_ok {A B} (m : M A) (f : A -> M B) s a s' :
  m s = ROk a s' -> (m ≫= f) s = f a s'.
Proof. intros H. unfold mbind, M_bind. by rewrite H. Qed.

Lemma ret_ok {A} (a : A) s : (mret a : M A) s = ROk a s.
Proof. reflexivity. Qed.

Lemma heap_set_heap h s : heap (set_heap h s) = h.
Proof. reflexivity. Qed.

Lemma set_heap_set_heap h h' s : set_heap h (set_heap h' s) = set_heap h s.
Proof. reflexivity. Qed.

Lemma tq_set_heap h s : thread_queue (set_heap h s) = thread_queue s.
Proof. reflexivity. Qed.

Lemma is_node_upd h x y f : is_node (upd_node h x f) y <-> is_node h y.
Proof.
  unfold is_node. destruct (decide (x = y)) as [->|Hne].
  - destruct (node_at h y) as [t|] eqn:E.
    + rewrite (node_at_upd_eq _ _ _ t E). split; eauto.
    + rewrite (upd_node_none _ _ _ E), E. done.
  - by rewrite node_at_upd_ne.
Qed.

Lemma get_prev_ok s a v : prev_of (heap s) a = Some v -> get_prev (Ptr a) s = ROk v s.
Proof.
  unfold prev_of, node_at, get_prev, load_node, mbind, M_bind, mret, M_ret.
  destruct (heap s !! a) as [[]|]; simpl; congruence.
Qed.

Lemma get_next_ok s a v : next_of (heap s) a = Some v -> get_next (Ptr a) s = ROk v s.
Proof.
  unfold next_of, node_at, get_next, load_node, mbind, M_bind, mret, M_ret.
  destruct (heap s !! a) as [[]|]; simpl; congruence.
Qed.

Lemma get_priority_ok s a : is_node (heap s) a -> get_priority (Ptr a) s = ROk (prio_of (heap s) a) s.
Proof.
  unfold is_node, prio_of, node_at, get_priority, load_node, mbind, M_bind, mret, M_ret.
  intros [t Ht]. destruct (heap s !! a) as [[]|]; simpl; congruence.
Qed.

Lemma get_context_ok s a v : ctx_of (heap s) a = Some v -> get_context (Ptr a) s = ROk v s.
Proof.
  unfold ctx_of, node_at, get_context, load_node, mbind, M_bind, mret, M_ret.
  destruct (heap s !! a) as [[]|]; simpl; congruence.
Qed.

Lemma upd_node_some h a f t : node_at h a = Some t -> upd_node h a f = <[a := ONode (f t)]> h.
Proof. unfold node_at, upd_node. destruct (h !! a) as [[]|]; congruence. Qed.

Lemma set_field_ok s a v (setf : uthread_t -> pval -> uthread_t) :
  is_node (heap s) a ->
  (t ← load_node (Ptr a); store_node (Ptr a) (setf t v)) s =
  ROk tt (set_heap (upd_node (heap s) a (fun t => setf t v)) s).
Proof.
  intros [t Ht]. rewrite (upd_node_some _ _ _ t Ht).
  unfold node_at in Ht. unfold load_node, store_node, mbind, M_bind.
  destruct (heap s !! a) as [[]|] eqn:E; try discriminate. injection Ht as ->.
  by rewrite E.
Qed.

Lemma set_prev_ok s a v :
  is_node (heap s) a ->
  set_prev (Ptr a) v s = ROk tt (set_heap (upd_node (heap s) a (fun t => set_prev_f t v)) s).
Proof. apply (set_field_ok s a v set_prev_f). Qed.

Lemma set_next_ok s a v :
  is_node (heap s) a ->
  set_next (Ptr a) v s = ROk tt (set_heap (upd_node (heap s) a (fun t => set_next_f t v)) s).
Proof. apply (set_field_ok s a v set_next_f). Qed.

Lemma set_priority_ok s a v :
  is_node (heap s) a ->
  set_priority (Ptr a) v s = ROk tt (set_heap (upd_node (heap s) a (fun t => set_priority_f t v)) s).
Proof.
  intros [t Ht]. rewrite (upd_node_some _ _ _ t Ht).
  unfold node_at in Ht. unfold set_priority, load_node, store_node, mbind, M_bind.
  destruct (heap s !! a) as [[]|] eqn:E; try discriminate. injection Ht as ->.
  by rewrite E.
Qed.

Lemma get_queue_ok s q : queue_of s = Some q -> get_queue s = ROk q s.
Proof.
  unfold queue_of, queue_at, get_queue. destruct (thread_queue s); try discriminate.
  destruct (heap s !! a) as [[]|]; congruence.
Qed.

Lemma put_queue_ok s q q' :
  queue_of s = Some q -> put_queue q' s = ROk tt (set_heap (qset (thread_queue s) (heap s) q') s).
Proof.
  unfold queue_of, queue_at, put_queue, qset. destruct (thread_queue s); try discriminate.
  destruct (heap s !! a) as [[]|]; congruence.
Qed.

Lemma set_head_ok s q v :
  queue_of s = Some q ->
  set_head v s = ROk tt (set_heap (qset (thread_queue s) (heap s) (mk_queue v (size q) (active q))) s).
Proof. intros H. unfold set_head. rewrite (bind_ok _ _ _ _ _ (get_queue_ok _ _ H)). by apply (put_queue_ok _ q). Qed.

Lemma set_size_ok s q v :
  queue_of s = Some q ->
  set_size v s = ROk tt (set_heap (qset (thread_queue s) (heap s) (mk_queue (head q) v (active q))) s).
Proof. intros H. unfold set_size. rewrite (bind_ok _ _ _ _ _ (get_queue_ok _ _ H)). by apply (put_queue_ok _ q). Qed.

Lemma set_active_ok s q v :
  queue_of s = Some q ->
  set_active v s = ROk tt (set_heap (qset (thread_queue s) (heap s) (mk_queue (head q) (size q) v)) s).
Proof. intros H. unfold set_active. rewrite (bind_ok _ _ _ _ _ (get_queue_ok _ _ H)). by apply (put_queue_ok _ q). Qed.

Lemma queue_of_set_heap h s : queue_of (set_heap h s) = queue_at (thread_queue s) h.
Proof. reflexivity. Qed.

Lemma queue_at_qset tq h q' :
  (exists q, queue_at tq h = Some q) -> queue_at tq (qset tq h q') = Some q'.
Proof.
  unfold queue_at, qset. intros [q Hq]. destruct tq; try discriminate.
  by rewrite lookup_insert_eq.
Qed.

Lemma is_queue_qset tq h q' :
  (exists q, queue_at tq h = Some q) -> exists q, queue_at tq (qset tq h q') = Some q.
Proof. intros H. exists q'. by apply queue_at_qset. Qed.

Lemma node_at_qset tq h q' y :
  (exists q, queue_at tq h = Some q) -> node_at (qset tq h q') y = node_at h y.
Proof.
  unfold queue_at, qset. intros [q Hq]. destruct tq; try discriminate.
  destruct (h !! a) as [[]|] eqn:E; try discriminate.
  by apply (node_at_queue _ _ q0).
Qed.

Lemma queue_at_upd tq h a f : queue_at tq (upd_node h a f) = queue_at tq h.
Proof.
  unfold queue_at. destruct tq as [|b|]; try reflexivity.
  unfold upd_node. destruct (h !! a) as [[]|] eqn:E; try reflexivity.
  destruct (decide (a = b)) as [->|Hne].
  - by rewrite lookup_insert_eq, E.
  - by rewrite lookup_insert_ne.
Qed.

Lemma is_queue_upd tq h a f :
  (exists q, queue_at tq h = Some q) -> exists q, queue_at tq (upd_node h a f) = Some q.
Proof. by rewrite queue_at_upd. Qed.

End Exec.

Section Exec2.

Lemma bind_assoc {A B C} (m : M A) (f : A -> M B) (g : B -> M C) s :
  ((m ≫= f) ≫= g) s = (m ≫= (fun a => f a ≫= g)) s.
Proof. unfold mbind, M_bind. by destruct (m s). Qed.

Lemma prev_of_qset tq h q' y :
  (exists q, queue_at tq h = Some q) -> prev_of (qset tq h q') y = prev_of h y.
Proof. intros H. unfold prev_of. by rewrite node_at_qset. Qed.

Lemma next_of_qset tq h q' y :
  (exists q, queue_at tq h = Some q) -> next_of (qset tq h q') y = next_of h y.
Proof. intros H. unfold next_of. by rewrite node_at_qset. Qed.

Lemma is_node_qset tq h q' y :
  (exists q, queue_at tq h = Some q) -> is_node (qset tq h q') y <-> is_node h y.
Proof. intros H. unfold is_node. by rewrite node_at_qset. Qed.

Lemma prio_of_qset tq h q' y :
  (exists q, queue_at tq h = Some q) -> prio_of (qset tq h q') y = prio_of h y.
Proof. intros H. unfold prio_of. by rewrite node_at_qset. Qed.

Lemma ctx_of_qset tq h q' y :
  (exists q, queue_at tq h = Some q) -> ctx_of (qset tq h q') y = ctx_of h y.
Proof. intros H. unfold ctx_of. by rewrite node_at_qset. Qed.

Lemma chain_qset tq h q' L :
  (exists q, queue_at tq h = Some q) -> chain h L -> chain (qset tq h q') L.
Proof.
  intros H. apply chain_frame. intros y _.
  by rewrite prev_of_qset, next_of_qset.
Qed.

Lemma is_node_prev h x v : prev_of h x = Some v -> is_node h x.
Proof. unfold prev_of, is_node. destruct (node_at h x); [eauto|discriminate]. Qed.

Lemma is_node_next h x v : next_of h x = Some v -> is_node h x.
Proof. unfold next_of, is_node. destruct (node_at h x); [eauto|discriminate]. Qed.

Lemma prev_of_upd_prev h x v : is_node h x -> prev_of (upd_node h x (fun t => set_prev_f t v)) x = Some v.
Proof. intros [t Ht]. by apply (prev_of_upd_prev_eq _ _ _ t). Qed.

Lemma next_of_upd_next h x v : is_node h x -> next_of (upd_node h x (fun t => set_next_f t v)) x = Some v.
Proof. intros [t Ht]. by apply (next_of_upd_next_eq _ _ _ t). Qed.

End Exec2.

Section Unlink.

Lemma chain_upd_prev h L x v :
  x ∉ removelast L -> chain h L -> chain (upd_node h x (fun t => set_prev_f t v)) L.
Proof.
  induction L as [|a L IH]; [done|]. destruct L as [|b L']; [done|].
  intros Hx. rewrite !chain_cons2. intros (H1 & H2 & H3).
  cbn [removelast] in Hx.
  rewrite prev_of_upd_ne by set_solver. rewrite next_of_upd_keep by done.
  split; [done|]. split; [done|]. apply IH; [set_solver|done].
Qed.

Lemma chain_upd_next h L x v :
  x ∉ tail L -> chain h L -> chain (upd_node h x (fun t => set_next_f t v)) L.
Proof.
  induction L as [|a L IH]; [done|]. destruct L as [|b L']; [done|].
  intros Hx. rewrite !chain_cons2. intros (H1 & H2 & H3).
  cbn [tail] in Hx.
  rewrite prev_of_upd_keep by done. rewrite next_of_upd_ne by set_solver.
  split; [done|]. split; [done|]. apply IH; [cbn [tail]; set_solver|done].
Qed.

(** Unlinking [p] between [a] and [c]: [c->next = a; a->prev = c]. *)
Lemma chain_unlink h L1 a p c L2 :
  a ∉ L1 -> a ∉ removelast (c :: L2) -> c ∉ tail (L1 ++ [a]) -> c ∉ L2 ->
  chain h (L1 ++ a :: p :: c :: L2) ->
  chain (upd_node (upd_node h c (fun t => set_next_f t (Ptr a))) a (fun t => set_prev_f t (Ptr c)))
        (L1 ++ a :: c :: L2).
Proof.
  intros Ha1 Ha2 Hc1 Hc2 Hch.
  apply chain_app in Hch as [HL HR]. rewrite !chain_cons2 in HR.
  destruct HR as (Hap & Hpa & Hpc & Hcp & HR).
  assert (Hna : is_node h a) by (by eapply is_node_prev).
  assert (Hnc : is_node h c) by (by eapply is_node_next).
  apply chain_app. split.
  - apply chain_upd_prev.
    { rewrite removelast_last. done. }
    apply chain_upd_next; done.
  - rewrite chain_cons2. split; [|split].
    + apply prev_of_upd_prev. by apply is_node_upd.
    + rewrite next_of_upd_keep by done. by apply next_of_upd_next.
    + apply chain_upd_prev; [done|]. apply chain_upd_next; [cbn [tail]; done|done].
Qed.

(** Removing the head [hd] with [c = hd->prev] and [a = hd->next]. *)
Lemma chain_unlink_head h hd c M a :
  NoDup (hd :: c :: M) -> last (c :: M) = Some a ->
  chain h ((hd :: c :: M) ++ [hd]) ->
  chain (upd_node (upd_node h c (fun t => set_next_f t (Ptr a))) a (fun t => set_prev_f t (Ptr c)))
        ((c :: M) ++ [c]).
Proof.
  intros Hnd Hl Hch.
  destruct (exists_last (l := c :: M) ltac:(discriminate)) as (K & a' & HK).
  rewrite HK, last_snoc in Hl. injection Hl as ->.
  change ((hd :: c :: M) ++ [hd]) with (hd :: ((c :: M) ++ [hd])) in Hch.
  change (hd :: c :: M) with (hd :: (c :: M)) in Hnd.
  rewrite HK in Hch, Hnd. rewrite <- app_assoc in Hch.
  change (chain h ((hd :: K) ++ a :: [hd])) in Hch.
  apply chain_app in Hch as [HL HR].
  rewrite chain_cons2 in HR. destruct HR as (Hah & Hha & _).
  assert (HL' : chain h (K ++ [a])).
  { destruct K as [|k K']; [exact I|]. cbn [app] in HL |- *. rewrite chain_cons2 in HL. tauto. }
  assert (Hna : is_node h a) by (by eapply is_node_prev).
  apply NoDup_cons in Hnd as [_ Hnd].
  assert (HaK : a ∉ K) by (apply NoDup_app in Hnd as (_ & Hd & _); intros Hin; apply (Hd a); set_solver).
  rewrite HK, <- app_assoc. apply (chain_app _ K a [c]). split.
  - apply chain_upd_prev; [by rewrite removelast_last|].
    apply chain_upd_next; [|done].
    rewrite <- HK in Hnd |- *. apply NoDup_cons in Hnd as [Hc _]. done.
  - assert (Hnc : is_node h c).
    { destruct K as [|k K'].
      - injection HK as ->. done.
      - injection HK as -> _. cbn [app] in HL. rewrite chain_cons2 in HL.
        destruct HL as (_ & Hx & _). by eapply is_node_next. }
    rewrite chain_cons2. split; [|split]; [| |done].
    + apply prev_of_upd_prev. by apply is_node_upd.
    + rewrite next_of_upd_keep by done. by apply next_of_upd_next.
Qed.

End Unlink.

(** Tactics for running the embedded code symbolically. *)

Ltac qsolve :=
  rewrite ?queue_of_set_heap, ?tq_set_heap;
  repeat first [ eassumption | eexists; eassumption | apply is_queue_qset | apply is_queue_upd ].

Ltac hsimp :=
  repeat first
    [ rewrite queue_of_set_heap
    | rewrite heap_set_heap
    | rewrite tq_set_heap
    | rewrite queue_at_upd
    | rewrite queue_at_qset by qsolve
    | rewrite is_node_upd
    | rewrite is_node_qset by qsolve
    | rewrite prev_of_qset by qsolve
    | rewrite next_of_qset by qsolve
    | rewrite prio_of_qset by qsolve
    | rewrite ctx_of_qset by qsolve
    | rewrite prev_of_upd_prev by (rewrite ?is_node_upd, ?is_node_qset by qsolve; eauto)
    | rewrite next_of_upd_next by (rewrite ?is_node_upd, ?is_node_qset by qsolve; eauto)
    | rewrite prev_of_upd_keep by done
    | rewrite next_of_upd_keep by done
    | rewrite prev_of_upd_ne by (congruence || set_solver)
    | rewrite next_of_upd_ne by (congruence || set_solver) ].

Section Frame.

Lemma only_links_refl s : only_links s s.
Proof.
  repeat split. intros y. destruct (heap s !! y) as [[]|]; auto.
Qed.

Lemma only_links_trans s1 s2 s3 : only_links s1 s2 -> only_links s2 s3 -> only_links s1 s3.
Proof.
  intros (A1 & B1 & C1 & D1 & H1) (A2 & B2 & C2 & D2 & H2).
  split; [by rewrite A2|]. split; [by rewrite B2|]. split; [by rewrite C2|].
  split; [by rewrite D2|].
  intros y. specialize (H1 y). specialize (H2 y).
  destruct (heap s1 !! y) as [[]|], (heap s2 !! y) as [[]|], (heap s3 !! y) as [[]|];
    try discriminate; try (injection H1 as <-); try (injection H2 as <-);
    cbv zeta in *; try subst; intuition congruence.
Qed.

Lemma only_links_upd s a f :
  (forall t, priority (f t) = priority t /\ func (f t) = func t /\ context (f t) = context t) ->
  only_links s (set_heap (upd_node (heap s) a f) s).
Proof.
  intros Hf. repeat split. intros y. simpl. unfold upd_node.
  destruct (heap s !! a) as [[]|] eqn:E;
    try (destruct (heap s !! y) as [[]|]; auto; fail).
  destruct (decide (a = y)) as [->|Hne].
  - rewrite lookup_insert_eq, E. apply Hf.
  - rewrite lookup_insert_ne by done. destruct (heap s !! y) as [[]|]; auto.
Qed.

Lemma only_links_qset s q h' sz' :
  queue_of s = Some q ->
  only_links s (set_heap (qset (thread_queue s) (heap s) (mk_queue h' sz' (active q))) s).
Proof.
  unfold queue_of, queue_at, qset. intros Hq. repeat split. intros y. simpl.
  destruct (thread_queue s) as [|a|]; try discriminate.
  destruct (heap s !! a) as [[]|] eqn:E; try discriminate. injection Hq as <-.
  destruct (decide (a = y)) as [->|Hne].
  - rewrite lookup_insert_eq, E. reflexivity.
  - rewrite lookup_insert_ne by done. destruct (heap s !! y) as [[]|]; auto.
Qed.

Lemma only_links_base s : only_links s (set_heap (heap s) s).
Proof. destruct s. apply only_links_refl. Qed.

Lemma only_links_upd_h s h a f :
  (forall t, priority (f t) = priority t /\ func (f t) = func t /\ context (f t) = context t) ->
  only_links s (set_heap h s) -> only_links s (set_heap (upd_node h a f) s).
Proof.
  intros Hf H. eapply only_links_trans; [exact H|].
  apply (only_links_upd (set_heap h s) a f Hf).
Qed.

Lemma only_links_qset_h s h q q' :
  queue_at (thread_queue s) h = Some q -> active q' = active q ->
  only_links s (set_heap h s) ->
  only_links s (set_heap (qset (thread_queue s) h q') s).
Proof.
  intros Hq Ha H. eapply only_links_trans; [exact H|].
  destruct q' as [h' sz' a']. simpl in Ha. subst a'.
  apply (only_links_qset (set_heap h s) q h' sz' Hq).
Qed.

End Frame.

Ltac olinks :=
  repeat first
    [ apply only_links_base
    | apply only_links_upd_h; [intros; simpl; auto|]
    | eapply only_links_qset_h; [first [eassumption | hsimp; first [reflexivity | eassumption]] | reflexivity |] ].

Ltac norm := rewrite ?heap_set_heap, ?tq_set_heap, ?set_heap_set_heap; cbn [head size active].

Tactic Notation "step" constr(L) "by" tactic3(tac) :=
  rewrite ?bind_assoc; erewrite bind_ok; [| eapply L; tac]; cbv beta; norm.

Section QueueOps.

(** Insertion: [add] appends a fresh record at the end of the scan order.
    The only failing case is a [size] of INT_MAX (signed overflow). *)
Lemma add_spec s P x :
  ring s P -> is_node (heap s) x -> x ∉ P -> Z.of_nat (length P) < INT_MAX ->
  exists s', add (Ptr x) s = ROk tt s' /\ ring s' (P ++ [x]) /\ only_links s s'.
Proof.
  intros (q & Hq & Hsz & Hnd & Hshape) Hx HxP Hlt.
  unfold add. step get_queue_ok by exact Hq.
  destruct P as [|hd P'].
  - (* empty ring *)
    assert (E : Z.eqb (size q) 0 = true) by (rewrite Hsz; reflexivity). rewrite E. cbv iota.
    step set_head_ok by exact Hq.
    step set_next_ok by (hsimp; done).
    step set_prev_ok by (hsimp; done).
    step get_queue_ok by (hsimp; reflexivity).
    assert (E2 : Z.eqb (size q) INT_MAX = false) by (apply Z.eqb_neq; lia).
    cbn [size]. rewrite E2.
    eexists. split; [apply set_size_ok; hsimp; reflexivity|].
    split.
    + eexists. split; [hsimp; reflexivity|].
      cbn [app length size head]. split; [lia|]. split; [constructor; [set_solver|constructor]|]. split; [done|].
      rewrite chain_cons2. unfold chain. hsimp. auto.
    + norm. olinks.
  - destruct Hshape as [Hhd Hch].
    assert (Hhdn : is_node (heap s) hd).
    { destruct P' as [|b P'']; cbn [app] in Hch;
      rewrite chain_cons2 in Hch; destruct Hch as [Hp _]; by eapply is_node_prev. }
    assert (E0 : Z.eqb (size q) 0 = false) by (rewrite Hsz; simpl; lia).
    assert (Hxhd : x <> hd) by set_solver.
    rewrite E0. cbv iota.
    destruct P' as [|b P''].
    + (* one record *)
      assert (E1 : Z.eqb (size q) 1 = true) by (rewrite Hsz; reflexivity). rewrite E1. cbv iota.
      step get_queue_ok by exact Hq. rewrite Hhd.
      step set_next_ok by (hsimp; done).
      step get_queue_ok by (hsimp; exact Hq). rewrite Hhd.
      step set_prev_ok by (hsimp; done).
      step get_queue_ok by (hsimp; exact Hq). rewrite Hhd.
      step set_next_ok by (hsimp; done).
      step get_queue_ok by (hsimp; exact Hq). rewrite Hhd.
      step set_prev_ok by (hsimp; done).
      step get_queue_ok by (hsimp; exact Hq).
      assert (E2 : Z.eqb (size q) INT_MAX = false) by (apply Z.eqb_neq; simpl in *; lia).
      rewrite E2.
      eexists. split; [apply set_size_ok; hsimp; exact Hq|].
      split.
      * eexists. split; [hsimp; reflexivity|]. norm.
        cbn [app length]. split; [simpl in *; lia|].
        split; [constructor; [set_solver|constructor; [set_solver|constructor]]|]. split; [done|].
        rewrite !chain_cons2. unfold chain. hsimp. auto.
      * norm. olinks.
    + (* two or more records: the new one goes between the last and head *)
      assert (E1 : Z.eqb (size q) 1 = false) by (apply Z.eqb_neq; rewrite Hsz; simpl; lia). rewrite E1. cbv iota.
      destruct (exists_last (l := b :: P'') ltac:(discriminate)) as (mid & lst & Hml).
      rewrite Hml in Hch, Hnd, HxP, Hlt, Hsz |- *.
      assert (Hch' : chain (heap s) ((hd :: mid) ++ lst :: [hd])).
      { revert Hch. cbn [app]. rewrite <- app_assoc. cbn [app]. done. }
      pose proof (chain_link _ _ _ _ _ Hch') as [Hpl Hnh].
      apply chain_app in Hch' as [Hch1 _].
      assert (Hlstn : is_node (heap s) lst) by (by eapply is_node_prev).
      assert (Hlhd : lst <> hd).
      { intros ->. apply NoDup_cons in Hnd as [Hn _]. apply Hn. set_solver. }
      assert (Hxl : x <> lst) by set_solver.
      step get_queue_ok by exact Hq. rewrite Hhd.
      step get_next_ok by exact Hnh.
      step set_prev_ok by (hsimp; done).
      step get_queue_ok by (hsimp; exact Hq). rewrite Hhd.
      step get_next_ok by (hsimp; exact Hnh).
      step set_next_ok by (hsimp; done).
      step get_queue_ok by (hsimp; exact Hq). rewrite Hhd.
      step set_prev_ok by (hsimp; done).
      step get_queue_ok by (hsimp; exact Hq). rewrite Hhd.
      step set_next_ok by (hsimp; done).
      step get_queue_ok by (hsimp; exact Hq).
      assert (E2 : Z.eqb (size q) INT_MAX = false).
      { apply Z.eqb_neq. rewrite Hsz. cbn [length] in Hlt |- *. rewrite ?length_app in Hlt |- *. simpl in *. lia. }
      rewrite E2.
      eexists. split; [apply set_size_ok; hsimp; exact Hq|].
      split.
      * eexists. split; [hsimp; reflexivity|]. norm.
        split; [rewrite Hsz; cbn [length app]; rewrite ?length_app; simpl; lia|].
        split.
        { apply NoDup_app. split; [done|]. split; [set_solver|constructor; [set_solver|constructor]]. }
        split; [done|].
        replace (((hd :: mid ++ [lst]) ++ [x]) ++ [hd]) with ((hd :: mid) ++ lst :: [x; hd])
          by (simpl; by rewrite <- !app_assoc).
        apply chain_app. split.
        -- apply chain_qset; [qsolve|].
           apply (chain_next_first _ (mid ++ [lst])); [apply NoDup_cons in Hnd; tauto|].
           apply chain_upd_notin; [set_solver|].
           apply chain_upd_notin; [set_solver|].
           apply (chain_prev_last _ (hd :: mid)); [apply NoDup_cons in Hnd as [_ Hnd']; apply NoDup_app in Hnd' as (_ & Hd & _); set_solver|].
           exact Hch1.
        -- rewrite !chain_cons2. unfold chain. hsimp. auto.
      * norm. olinks.
Qed.

Lemma ptr_eq_ptr x y s : ptr_eq (Ptr x) (Ptr y) s = ROk (Nat.eqb x y) s.
Proof. reflexivity. Qed.

(** The scan loop, started at [x] with the running best [best], visits the
    records [post] that follow [x] in scan order and returns the first
    minimum. *)
Lemma scan_spec s q hd pre x post best fuel :
  queue_of s = Some q -> head q = Ptr hd -> hd ∈ pre ++ [x] ->
  NoDup (pre ++ x :: post) -> chain (heap s) ((pre ++ x :: post) ++ [hd]) ->
  is_node (heap s) best -> (length post < fuel)%nat ->
  scan fuel (Ptr x) (Ptr best) (prio_of (heap s) best) s =
  ROk (Ptr (sel_from (prio_of (heap s)) best post), prio_of (heap s) (sel_from (prio_of (heap s)) best post)) s.
Proof.
  intros Hq Hhd. revert pre x best fuel.
  induction post as [|y post IH]; intros pre x best fuel Hin Hnd Hch Hb Hf;
    (destruct fuel as [|f]; [simpl in Hf; lia|]); cbn [scan].
  - rewrite <- app_assoc in Hch. cbn [app] in Hch.
    pose proof (chain_link _ _ _ _ _ Hch) as [Hp _].
    step get_prev_ok by exact Hp.
    step get_queue_ok by exact Hq. rewrite Hhd.
    step ptr_eq_ptr by idtac. rewrite Nat.eqb_refl. reflexivity.
  - rewrite <- app_assoc in Hch. cbn [app] in Hch.
    pose proof (chain_link _ _ _ _ _ Hch) as [Hp Hn].
    assert (Hyhd : y <> hd).
    { intros ->. replace (pre ++ x :: hd :: post) with ((pre ++ [x]) ++ hd :: post) in Hnd
        by (by rewrite <- app_assoc).
      apply NoDup_app in Hnd as (_ & Hd & _). apply (Hd hd); [done|set_solver]. }
    step get_prev_ok by exact Hp.
    step get_queue_ok by exact Hq. rewrite Hhd.
    step ptr_eq_ptr by idtac.
    assert (E : Nat.eqb y hd = false) by (by apply Nat.eqb_neq). rewrite E. cbv iota.
    step get_prev_ok by exact Hp.
    assert (Hyn : is_node (heap s) y) by (by eapply is_node_next).
    step get_priority_ok by exact Hyn.
    cbn [sel_from].
    assert (Hnd' : NoDup ((pre ++ [x]) ++ y :: post)) by (by rewrite <- app_assoc).
    assert (Hch' : chain (heap s) (((pre ++ [x]) ++ y :: post) ++ [hd]))
      by (rewrite <- !app_assoc; exact Hch).
    destruct (prio_of (heap s) y <? prio_of (heap s) best).
    + apply (IH (pre ++ [x])); [set_solver|exact Hnd'|exact Hch'|done|simpl in Hf; lia].
    + apply (IH (pre ++ [x])); [set_solver|exact Hnd'|exact Hch'|done|simpl in Hf; lia].
Qed.

(** [sel_from] picks the first record of minimal priority. *)
Lemma sel_from_split pr b L :
  exists L1 L2, b :: L = L1 ++ sel_from pr b L :: L2 /\
    Forall (fun y => pr (sel_from pr b L) < pr y) L1 /\
    Forall (fun y => pr (sel_from pr b L) <= pr y) L2.
Proof.
  revert b. induction L as [|x L IH]; intros b; cbn [sel_from].
  - exists [], []. split; [done|]. split; constructor.
  - destruct (pr x <? pr b) eqn:E.
    + apply Z.ltb_lt in E. destruct (IH x) as (L1 & L2 & Heq & H1 & H2).
      exists (b :: L1), L2. split; [by rewrite Heq|]. split; [|done].
      constructor; [|done].
      destruct L1 as [|y L1']; cbn [app] in Heq; injection Heq as Hx _.
      * rewrite <- Hx. done.
      * subst y. apply Forall_cons in H1 as [H1 _]. lia.
    + apply Z.ltb_ge in E. destruct (IH b) as (L1 & L2 & Heq & H1 & H2).
      destruct L1 as [|y L1']; cbn [app] in Heq; injection Heq as Hb Hrest.
      * exists [], (x :: L2). split; [by rewrite <- Hb, Hrest|]. split; [constructor|].
        constructor; [rewrite <- Hb; lia|done].
      * exists (b :: x :: L1'), L2. split; [cbn [app]; by do 2 f_equal|].
        subst y. apply Forall_cons in H1 as [Hb' H1]. split; [|done].
        constructor; [done|]. constructor; [lia|done].
Qed.

Lemma get_empty s fuel : ring s [] -> get_priority_thread fuel s = ROk Null s.
Proof.
  intros (q & Hq & Hsz & _). unfold get_priority_thread.
  step get_queue_ok by exact Hq. rewrite Hsz. reflexivity.
Qed.

Lemma get_spec s hd rest fuel :
  ring s (hd :: rest) -> (length rest < fuel)%nat ->
  exists s' L1 L2,
    get_priority_thread fuel s = ROk (Ptr (sel_from (prio_of (heap s)) hd rest)) s' /\
    hd :: rest = L1 ++ sel_from (prio_of (heap s)) hd rest :: L2 /\
    Forall (fun y => prio_of (heap s) (sel_from (prio_of (heap s)) hd rest) < prio_of (heap s) y) L1 /\
    Forall (fun y => prio_of (heap s) (sel_from (prio_of (heap s)) hd rest) <= prio_of (heap s) y) L2 /\
    ring s' (L1 ++ L2) /\ only_links s s'.
Proof.
  intros (q & Hq & Hsz & Hnd & Hhd & Hch) Hf.
  destruct (sel_from_split (prio_of (heap s)) hd rest) as (L1 & L2 & Hsplit & Hlt & Hle).
  unfold get_priority_thread. step get_queue_ok by exact Hq.
  assert (E0 : Z.eqb (size q) 0 = false) by (rewrite Hsz; simpl; lia).
  rewrite E0. cbv iota.
  assert (Hhdn : is_node (heap s) hd).
  { destruct rest as [|b rest']; cbn [app] in Hch;
    rewrite chain_cons2 in Hch; destruct Hch as [Hp _]; by eapply is_node_prev. }
  destruct rest as [|b rest'].
  - (* one record *)
    assert (E1 : Z.eqb (size q) 1 = true) by (rewrite Hsz; reflexivity). rewrite E1. cbv iota.
    step get_queue_ok by exact Hq. cbv zeta. rewrite Hhd.
    step set_head_ok by exact Hq.
    step set_size_ok by (hsimp; reflexivity).
    cbn [sel_from] in *.
    destruct L1 as [|y L1']; [|destruct L1'; discriminate].
    injection Hsplit as Hl2. subst L2.
    eexists; exists [], []. split; [reflexivity|]. split; [done|]. split; [constructor|]. split; [constructor|].
    split.
    + eexists. split; [hsimp; reflexivity|]. norm. split; [done|]. split; [constructor|done].
    + norm. olinks.
  - assert (E1 : Z.eqb (size q) 1 = false) by (apply Z.eqb_neq; rewrite Hsz; simpl; lia).
    rewrite E1. cbv iota.
    step get_queue_ok by exact Hq. cbv zeta. rewrite Hhd.
    step get_priority_ok by exact Hhdn.
    step (scan_spec s q hd [] hd (b :: rest') hd fuel) by (first [exact Hq | exact Hhd | set_solver | exact Hnd | exact Hch | exact Hhdn | lia]).
    cbv iota.
    set (p := sel_from (prio_of (heap s)) hd (b :: rest')) in *.
    destruct L1 as [|y L1'].
    + (* the head is selected *)
      injection Hsplit as Hp HL2. clearbody p. subst p L2.
      destruct (exists_last (l := b :: rest') ltac:(discriminate)) as (K & a & HK).
      assert (Hch' : chain (heap s) ((hd :: K) ++ a :: [hd])).
      { revert Hch. change ((hd :: b :: rest') ++ [hd]) with (hd :: ((b :: rest') ++ [hd])).
        rewrite HK, <- app_assoc. done. }
      pose proof (chain_link _ _ _ _ _ Hch') as [Hpa Hna'].
      assert (Hhb : prev_of (heap s) hd = Some (Ptr b) /\ next_of (heap s) b = Some (Ptr hd)).
      { revert Hch. cbn [app]. rewrite chain_cons2. tauto. }
      destruct Hhb as [Hpb Hnb].
      assert (Hbhd : b <> hd) by (apply NoDup_cons in Hnd; set_solver).
      assert (Hahd : a <> hd).
      { intros ->. apply NoDup_cons in Hnd as [Hn _]. apply Hn. rewrite HK. set_solver. }
      assert (Hna : is_node (heap s) a) by (by eapply is_node_prev).
      assert (Hnb' : is_node (heap s) b) by (by eapply is_node_next).
      eexists; exists [], (b :: rest'). split; [|split; [done|split; [constructor|split; [done|]]]].
      * step get_queue_ok by exact Hq. rewrite Hhd.
        step ptr_eq_ptr by idtac. rewrite Nat.eqb_refl. cbv iota.
        step get_prev_ok by exact Hpb.
        step set_head_ok by exact Hq.
        step get_prev_ok by (hsimp; exact Hpb).
        step get_next_ok by (hsimp; exact Hna').
        step set_next_ok by (hsimp; done).
        step get_next_ok by (hsimp; exact Hna').
        step get_prev_ok by (hsimp; exact Hpb).
        step set_prev_ok by (hsimp; done).
        step get_queue_ok by (hsimp; reflexivity).
        step set_size_ok by (hsimp; reflexivity).
        reflexivity.
      * split; [|norm; olinks].
        eexists. split; [hsimp; reflexivity|]. norm.
        cbn [app]. split; [rewrite Hsz; cbn [length]; lia|].
        split; [by apply NoDup_cons in Hnd as [_ ?]|].
        split; [done|].
        apply chain_qset; [qsolve|].
        apply (chain_unlink_head _ hd); [done| |].
        -- rewrite HK. apply last_snoc.
        -- apply chain_qset; [qsolve|done].
    + injection Hsplit as Hy Hrest. subst y.
      rewrite Hrest in Hnd, Hch. cbn [app] in Hch.
      assert (Hn1 : hd ∉ L1' ++ p :: L2) by (apply NoDup_cons in Hnd; tauto).
      apply NoDup_cons in Hnd as [_ Hnd'].
      pose proof Hnd' as Hnd2. apply NoDup_app in Hnd2 as (Hn2 & Hn3 & Hn4).
      apply NoDup_cons in Hn4 as [Hn4 Hn5].
      assert (Hphd : p <> hd) by set_solver.
      destruct (exists_last (l := hd :: L1') ltac:(discriminate)) as (La & a & HLa).
      assert (Hc : exists c Lc, L2 ++ [hd] = c :: Lc) by (destruct L2 as [|c Lc]; eauto).
      destruct Hc as (c & Lc & HLc).
      assert (HndLc : NoDup (c :: Lc)).
      { rewrite <- HLc. apply NoDup_app. split; [done|]. split; [set_solver|]. apply NoDup_singleton. }
      assert (Hchp : chain (heap s) (La ++ a :: p :: c :: Lc)).
      { rewrite <- HLc. replace (La ++ a :: p :: L2 ++ [hd]) with ((La ++ [a]) ++ p :: L2 ++ [hd])
          by (by rewrite <- app_assoc). rewrite <- HLa. rewrite <- app_assoc in Hch. exact Hch. }
      assert (HaLa : a ∈ hd :: L1') by (rewrite HLa; set_solver).
      assert (HcL2 : c ∈ L2 ++ [hd]) by (rewrite HLc; set_solver).
      assert (Hap : a <> p) by set_solver.
      assert (Hcp : c <> p) by set_solver.
      pose proof (chain_link _ _ _ _ _ Hchp) as [Hpa Hap'].
      replace (La ++ a :: p :: c :: Lc) with ((La ++ [a]) ++ p :: c :: Lc) in Hchp
        by (by rewrite <- app_assoc).
      pose proof (chain_link _ _ _ _ _ Hchp) as [Hpc Hcp'].
      assert (Hna : is_node (heap s) a) by (by eapply is_node_prev).
      assert (Hnc : is_node (heap s) c) by (by eapply is_node_next).
      eexists; exists (hd :: L1'), L2. split; [|split; [cbn [app]; by rewrite Hrest|split; [done|split; [done|]]]].
      * step get_queue_ok by exact Hq. rewrite Hhd.
        step ptr_eq_ptr by idtac.
        assert (E : Nat.eqb p hd = false) by (by apply Nat.eqb_neq). rewrite E. cbv iota.
        step (ret_ok (A:=unit)) by idtac.
        step get_prev_ok by exact Hpc.
        step get_next_ok by exact Hap'.
        step set_next_ok by (hsimp; done).
        step get_next_ok by (hsimp; exact Hap').
        step get_prev_ok by (hsimp; exact Hpc).
        step set_prev_ok by (hsimp; done).
        step get_queue_ok by (hsimp; exact Hq).
        step set_size_ok by (hsimp; exact Hq).
        reflexivity.
      * split; [|norm; olinks].
        eexists. split; [hsimp; reflexivity|]. norm.
        split; [rewrite Hsz, Hrest; cbn [length]; rewrite !length_app; cbn [length]; lia|].
        split.
        { apply NoDup_cons. split; [set_solver|]. apply NoDup_app. split; [done|]. split; [set_solver|done]. }
        split; [done|].
        apply chain_qset; [qsolve|].
        assert (El : ((hd :: L1') ++ L2) ++ [hd] = La ++ a :: c :: Lc).
        { rewrite HLa, <- !app_assoc, HLc. done. }
        rewrite El. apply (chain_unlink _ _ _ p).
        -- assert (Hnda : NoDup (La ++ [a])) by (rewrite <- HLa; apply NoDup_cons; split; [set_solver|done]).
           apply NoDup_app in Hnda as (_ & Hd & _). intros Hin. apply (Hd a Hin). set_solver.
        -- rewrite <- HLc, removelast_last. set_solver.
        -- rewrite <- HLa. cbn [tail]. set_solver.
        -- by apply NoDup_cons in HndLc as [? _].
        -- rewrite <- app_assoc in Hchp. exact Hchp.
Qed.

End QueueOps.

(** ** Further lemmas: the guard, walks, frames, exit and teardown *)



Ltac ring_conc :=
  eexists; split; [vm_compute; reflexivity|];
  split; [vm_compute; reflexivity|];
  split; [repeat constructor; set_solver|];
  vm_compute; repeat split.

Lemma sem_wait_ok s v : lock s = Some v -> 0 < v -> sem_wait s = ROk tt (set_lock (Some (v - 1)) s).
Proof. intros H Hv. unfold sem_wait. rewrite H. apply Z.ltb_lt in Hv. by rewrite Hv. Qed.

Lemma sem_post_ok s v : lock s = Some v -> sem_post s = ROk tt (set_lock (Some (v + 1)) s).
Proof. intros H. unfold sem_post. by rewrite H. Qed.

Lemma queue_of_set_lock s v : queue_of (set_lock v s) = queue_of s.
Proof. reflexivity. Qed.

Lemma heap_set_lock s v : heap (set_lock v s) = heap s.
Proof. reflexivity. Qed.

Lemma lock_set_lock s v : lock (set_lock v s) = v.
Proof. reflexivity. Qed.

Lemma set_lock_set_lock s v w : set_lock v (set_lock w s) = set_lock v s.
Proof. reflexivity. Qed.

Lemma set_lock_same s v : lock s = v -> set_lock v s = s.
Proof. intros <-. by destruct s. Qed.

Lemma nodup_split_unique (A B C D : list nat) y :
  NoDup (A ++ y :: B) -> A ++ y :: B = C ++ y :: D -> A = C /\ B = D.
Proof.
  revert C. induction A as [|a A IH]; intros C Hnd Heq; destruct C as [|c C]; cbn [app] in *.
  - by injection Heq.
  - injection Heq as -> Heq. apply NoDup_cons in Hnd as [Hn _]. exfalso. apply Hn. rewrite Heq. set_solver.
  - injection Heq as -> Heq. apply NoDup_cons in Hnd as [Hn _]. exfalso. apply Hn. set_solver.
  - injection Heq as -> Heq. apply NoDup_cons in Hnd as [_ Hnd].
    destruct (IH C Hnd Heq) as [-> ->]. done.
Qed.

(** Tie-break law *)
Lemma get_priority_thread_fifo s L1 x L2 y L3 fuel :
  ring s (L1 ++ x :: L2 ++ y :: L3) -> prio_of (heap s) x = prio_of (heap s) y ->
  (length (L1 ++ x :: L2 ++ y :: L3) <= fuel)%nat ->
  exists s' p, get_priority_thread fuel s = ROk (Ptr p) s' /\ p <> y.
Proof.
  intros Hr Heq Hf. pose proof Hr as Hr0.
  destruct (L1 ++ x :: L2 ++ y :: L3) as [|hd rest] eqn:EP; [destruct L1; discriminate|].
  destruct (get_spec s hd rest fuel Hr ltac:(simpl in Hf; lia))
    as (s' & M1 & M2 & Hrun & Hsplit & Hlt & Hle & _ & _).
  exists s', (sel_from (prio_of (heap s)) hd rest). split; [done|].
  intros Hpy. destruct Hr0 as (q & _ & _ & Hnd & _).
  rewrite Hsplit in EP, Hnd. rewrite Hpy in EP, Hnd, Hlt. rewrite <- EP in Hnd.
  (* y occurs once, so the records before it coincide *)
  assert (HM : M1 = L1 ++ x :: L2).
  { replace (L1 ++ x :: L2 ++ y :: L3) with ((L1 ++ x :: L2) ++ y :: L3) in EP, Hnd
      by (by rewrite <- app_assoc).
    symmetry. by apply (nodup_split_unique _ L3 _ M2 y). }
  rewrite HM, Forall_app, Forall_cons in Hlt. destruct Hlt as (_ & Hx & _). lia.
Qed.

Lemma walk_prev_chain h x L z :
  chain h ((x :: L) ++ [z]) -> walk_prev h x (S (length L)) = Some (x :: L, z).
Proof.
  revert x. induction L as [|y L IH]; intros x Hc; cbn [app] in Hc.
  - rewrite chain_cons2 in Hc. destruct Hc as (Hp & _). cbn [walk_prev length]. by rewrite Hp.
  - rewrite chain_cons2 in Hc. destruct Hc as (Hp & _ & Hc).
    cbn [length]. cbn [walk_prev]. rewrite Hp. cbn [walk_prev] in IH.
    specialize (IH y Hc). cbn [length] in IH. cbn [walk_prev] in IH. rewrite IH. done.
Qed.

Lemma walk_next_S h x n :
  walk_next h x (S n) =
  match next_of h x with
  | Some (Ptr y) => match walk_next h y n with Some (L, z) => Some (x :: L, z) | None => None end
  | _ => None
  end.
Proof. reflexivity. Qed.

Lemma walk_next_snoc h x n V w z :
  walk_next h x n = Some (V, w) -> next_of h w = Some (Ptr z) ->
  walk_next h x (S n) = Some (V ++ [w], z).
Proof.
  revert x V. induction n as [|n IH]; intros x V Hw Hn.
  - cbn [walk_next] in Hw. injection Hw as <- <-. cbn [walk_next]. by rewrite Hn.
  - rewrite walk_next_S in Hw |- *. destruct (next_of h x) as [[|y|]|]; try discriminate.
    destruct (walk_next h y n) as [[V' w']|] eqn:E; try discriminate.
    injection Hw as <- <-. by rewrite (IH y V' E Hn).
Qed.

Lemma walk_next_chain h z L x :
  chain h ((z :: L) ++ [x]) -> walk_next h x (S (length L)) = Some (x :: reverse L, z).
Proof.
  revert z. induction L as [|y L IH]; intros z Hc; cbn [app] in Hc.
  - rewrite chain_cons2 in Hc. destruct Hc as (_ & Hn & _). cbn [walk_next length]. by rewrite Hn.
  - rewrite chain_cons2 in Hc. destruct Hc as (_ & Hn & Hc).
    specialize (IH y Hc). cbn [length].
    rewrite reverse_cons. rewrite app_comm_cons. by apply walk_next_snoc.
Qed.

Lemma chain_rotate h L1 x L2 hd :
  chain h ((hd :: L1 ++ x :: L2) ++ [hd]) -> chain h ((x :: L2 ++ hd :: L1) ++ [x]).
Proof.
  intros Hc.
  assert (E1 : (hd :: L1 ++ x :: L2) ++ [hd] = (hd :: L1) ++ x :: L2 ++ [hd])
    by (cbn [app]; by rewrite <- app_assoc).
  assert (E2 : (x :: L2 ++ hd :: L1) ++ [x] = (x :: L2) ++ hd :: L1 ++ [x])
    by (cbn [app]; by rewrite <- app_assoc).
  rewrite E1 in Hc. rewrite E2.
  apply chain_app in Hc as [Hc1 Hc2]. apply chain_app. split; [done|].
  done.
Qed.

Lemma ring_circular s P : ring s P -> circular s.
Proof.
  intros (q & Hq & Hsz & Hnd & Hshape). exists q. split; [done|]. split; [lia|].
  intros Hnz. destruct P as [|hd rest]; [simpl in Hsz; lia|].
  destruct Hshape as [Hhd Hch].
  assert (Hn : Z.to_nat (size q) = S (length rest)) by (rewrite Hsz; cbn [length]; lia).
  rewrite Hn.
  assert (Hperm : hd :: reverse rest ≡ₚ hd :: rest) by (by rewrite reverse_Permutation).
  exists hd, (hd :: reverse rest). split; [done|]. split.
  { apply walk_next_chain. exact Hch. }
  split; [by rewrite Hperm|].
  intros x Hx. rewrite Hperm in Hx. apply list_elem_of_split in Hx as (L1 & L2 & HL).
  assert (Hrot : exists R, x :: R ≡ₚ hd :: rest /\ length R = length rest /\
                           chain (heap s) ((x :: R) ++ [x])).
  { destruct L1 as [|a L1]; cbn [app] in HL; injection HL as <- HL.
    - exists rest. done.
    - exists (L2 ++ hd :: L1). split; [|split].
      + rewrite HL. apply (Permutation_cons_app (hd :: L1) L2). apply Permutation_app_comm.
      + rewrite HL, !length_app. cbn [length]. lia.
      + apply chain_rotate. by rewrite <- HL. }
  destruct Hrot as (R & HpR & Hlen & Hrot).
  exists (x :: R), (x :: reverse R). rewrite <- Hlen. split; [by apply walk_prev_chain|].
  split; [by rewrite HpR, Hperm|]. split.
  - by apply walk_next_chain.
  - by rewrite reverse_Permutation, HpR, Hperm.
Qed.

Section Frame2.

Lemma ol_key s s' y :
  only_links s s' ->
  match heap s !! y, heap s' !! y with
  | Some (ONode t), Some (ONode t') =>
      priority t' = priority t /\ func t' = func t /\ context t' = context t
  | Some (OQueue q), Some (OQueue q') => active q' = active q
  | o, o' => o' = o
  end.
Proof. intros (_ & _ & _ & _ & H). apply H. Qed.

Lemma ol_node_at s s' y :
  only_links s s' ->
  match node_at (heap s) y, node_at (heap s') y with
  | Some t, Some t' => priority t' = priority t /\ func t' = func t /\ context t' = context t
  | None, None => True
  | _, _ => False
  end.
Proof.
  intros H. pose proof (ol_key s s' y H) as Hk. unfold node_at.
  destruct (heap s !! y) as [[]|], (heap s' !! y) as [[]|]; try discriminate; auto.
Qed.

Lemma ol_is_node s s' y : only_links s s' -> is_node (heap s) y -> is_node (heap s') y.
Proof.
  intros H [t Ht]. pose proof (ol_node_at s s' y H) as Hk. rewrite Ht in Hk.
  destruct (node_at (heap s') y) eqn:E; [by exists u|done].
Qed.

Lemma ol_prio s s' y : only_links s s' -> prio_of (heap s') y = prio_of (heap s) y.
Proof.
  intros H. pose proof (ol_node_at s s' y H) as Hk. unfold prio_of.
  destruct (node_at (heap s) y), (node_at (heap s') y); intuition.
Qed.

Lemma ol_ctx s s' y : only_links s s' -> ctx_of (heap s') y = ctx_of (heap s) y.
Proof.
  intros H. pose proof (ol_node_at s s' y H) as Hk. unfold ctx_of.
  destruct (node_at (heap s) y), (node_at (heap s') y); simpl; intuition congruence.
Qed.

Lemma ol_octx s s' c uc : only_links s s' -> heap s !! c = Some (OCtx uc) -> heap s' !! c = Some (OCtx uc).
Proof.
  intros H Hc. pose proof (ol_key s s' c H) as Hk. rewrite Hc in Hk.
  destruct (heap s' !! c) as [[]|]; congruence.
Qed.

Lemma ol_none s s' y : only_links s s' -> (heap s' !! y = None <-> heap s !! y = None).
Proof.
  intros H. pose proof (ol_key s s' y H) as Hk.
  destruct (heap s !! y) as [[]|], (heap s' !! y) as [[]|]; split; congruence.
Qed.

Lemma ol_queue s s' q :
  only_links s s' -> queue_of s = Some q -> exists q', queue_of s' = Some q' /\ active q' = active q.
Proof.
  intros H Hq. pose proof H as (Htq & _). unfold queue_of, queue_at in *. rewrite Htq.
  destruct (thread_queue s) as [|a|]; try discriminate.
  pose proof (ol_key s s' a H) as Hk.
  destruct (heap s !! a) as [[]|]; try discriminate. injection Hq as ->.
  destruct (heap s' !! a) as [[]|]; try discriminate; eauto.
Qed.

Lemma ol_ctx_ok s s' y : only_links s s' -> ctx_ok (heap s) y -> ctx_ok (heap s') y.
Proof.
  intros H (c & uc & Hc & Ho). exists c, uc. rewrite (ol_ctx s s' y H).
  split; [done|]. by apply (ol_octx s).
Qed.

End Frame2.

Section Yield.

Lemma ring_set_lock s v P : ring (set_lock v s) P <-> ring s P.
Proof. reflexivity. Qed.

Lemma tq_set_lock s v : thread_queue (set_lock v s) = thread_queue s.
Proof. reflexivity. Qed.

Lemma swaps_set_lock s v : swaps (set_lock v s) = swaps s.
Proof. reflexivity. Qed.

Lemma swaps_set_heap s h : swaps (set_heap h s) = swaps s.
Proof. reflexivity. Qed.

Lemma lock_set_heap s h : lock (set_heap h s) = lock s.
Proof. reflexivity. Qed.

Lemma node_at_upd_prio h a v y :
  node_at (upd_node h a (fun t => set_priority_f t v)) y =
  (if decide (a = y) then (fun t => set_priority_f t v) <$> node_at h y else node_at h y).
Proof.
  destruct (decide (a = y)) as [->|Hne]; [|by apply node_at_upd_ne].
  destruct (node_at h y) as [t|] eqn:E; simpl.
  - by rewrite (node_at_upd_eq _ _ _ t E).
  - by rewrite upd_node_none, E.
Qed.

Lemma ctx_of_upd_prio h a v y : ctx_of (upd_node h a (fun t => set_priority_f t v)) y = ctx_of h y.
Proof.
  unfold ctx_of. rewrite node_at_upd_prio. destruct (decide (a = y)); [|done].
  by destruct (node_at h y).
Qed.

Lemma prio_of_upd_prio_ne h a v y : a <> y -> prio_of (upd_node h a (fun t => set_priority_f t v)) y = prio_of h y.
Proof. intros Hne. unfold prio_of. by rewrite node_at_upd_ne. Qed.

Lemma prio_of_upd_prio_eq h a v : is_node h a -> prio_of (upd_node h a (fun t => set_priority_f t v)) a = v.
Proof. intros [t Ht]. unfold prio_of. by rewrite (node_at_upd_eq _ _ _ t Ht). Qed.

Lemma lookup_upd_octx h a f c uc : h !! c = Some (OCtx uc) -> upd_node h a f !! c = Some (OCtx uc).
Proof.
  intros Hc. unfold upd_node. destruct (h !! a) as [[]|] eqn:E; try done.
  rewrite lookup_insert_ne; [done|]. intros ->. congruence.
Qed.

Lemma lookup_qset_octx tq h q c uc :
  (exists q0, queue_at tq h = Some q0) -> h !! c = Some (OCtx uc) -> qset tq h q !! c = Some (OCtx uc).
Proof.
  intros [q0 Hq] Hc. unfold qset, queue_at in *. destruct tq as [|a|]; try done.
  destruct (decide (a = c)) as [->|Hne].
  - rewrite Hc in Hq. discriminate.
  - by rewrite lookup_insert_ne.
Qed.

Lemma ring_upd_prio s P a v :
  ring s P -> ring (set_heap (upd_node (heap s) a (fun t => set_priority_f t v)) s) P.
Proof.
  intros (q & Hq & Hsz & Hnd & Hsh). exists q. split; [by rewrite queue_of_set_heap, queue_at_upd|].
  split; [done|]. split; [done|]. destruct P as [|hd rest]; [done|].
  destruct Hsh as [Hhd Hch]. split; [done|]. rewrite heap_set_heap.
  by apply chain_upd_keep.
Qed.

Lemma ring_qset_q s q q' P :
  queue_of s = Some q -> head q' = head q -> size q' = size q ->
  ring s P -> ring (set_heap (qset (thread_queue s) (heap s) q') s) P.
Proof.
  intros Hq0 Hh Hs (q0 & Hq & Hsz & Hnd & Hsh). rewrite Hq0 in Hq. injection Hq as <-.
  exists q'. split; [rewrite queue_of_set_heap; apply queue_at_qset; by exists q|].
  split; [by rewrite Hs|]. split; [done|]. destruct P as [|hd rest]; [done|].
  destruct Hsh as [Hhd Hch]. split; [by rewrite Hh|]. rewrite heap_set_heap.
  apply chain_qset; [by exists q|done].
Qed.

Lemma swapcontext_ok s a b u1 u2 :
  heap s !! a = Some (OCtx u1) -> heap s !! b = Some (OCtx u2) ->
  swapcontext (Ptr a) (Ptr b) s =
  ROk tt (mk_state (heap s) (oom s) (lock s) (thread_queue s) (swaps s ++ [(Ptr a, Ptr b)])).
Proof. intros Ha Hb. unfold swapcontext, load_ctx. by rewrite Ha, Hb. Qed.

Lemma sel_from_ext pr pr' b L :
  (forall y, y ∈ b :: L -> pr y = pr' y) -> sel_from pr b L = sel_from pr' b L.
Proof.
  revert b. induction L as [|x L IH]; intros b H; [done|]. cbn [sel_from].
  rewrite (H x), (H b) by set_solver.
  destruct (pr' x <? pr' b); apply IH; intros y Hy; apply H; set_solver.
Qed.

End Yield.

Section Exit.

Lemma node_at_delete_ne h a y : a <> y -> node_at (delete a h) y = node_at h y.
Proof. intros Hne. unfold node_at. by rewrite lookup_delete_ne. Qed.

Lemma queue_at_delete_node tq h a : is_node h a -> queue_at tq (delete a h) = queue_at tq h.
Proof.
  intros [t Ht]. unfold queue_at. destruct tq as [|b|]; try done.
  destruct (decide (a = b)) as [->|Hne].
  - rewrite lookup_delete_eq. unfold node_at in Ht. destruct (h !! b) as [[]|]; congruence.
  - by rewrite lookup_delete_ne.
Qed.

Lemma ring_delete s P a :
  ring s P -> a ∉ P -> is_node (heap s) a -> ring (set_heap (delete a (heap s)) s) P.
Proof.
  intros (q & Hq & Hsz & Hnd & Hsh) HaP Ha. exists q.
  split; [rewrite queue_of_set_heap, queue_at_delete_node; done|].
  split; [done|]. split; [done|]. destruct P as [|hd rest]; [done|].
  destruct Hsh as [Hhd Hch]. split; [done|]. rewrite heap_set_heap.
  apply (chain_frame (heap s)); [|done]. intros y Hy.
  unfold prev_of, next_of. rewrite node_at_delete_ne by set_solver. done.
Qed.

Lemma free_ok s a o : heap s !! a = Some o -> free (Ptr a) s = ROk tt (set_heap (delete a (heap s)) s).
Proof. intros H. unfold free. by rewrite H. Qed.

Lemma setcontext_ok s c uc : heap s !! c = Some (OCtx uc) -> setcontext (Ptr c) s = RJump (Ptr c) s.
Proof. intros H. unfold setcontext, load_ctx. by rewrite H. Qed.

Lemma lookup_qset_is_none tq h q y :
  (exists q0, queue_at tq h = Some q0) -> (qset tq h q !! y = None <-> h !! y = None).
Proof.
  intros [q0 Hq]. unfold qset, queue_at in *. destruct tq as [|a|]; try done.
  destruct (decide (a = y)) as [->|Hne].
  - rewrite lookup_insert_eq. destruct (h !! y) as [[]|]; split; congruence.
  - by rewrite lookup_insert_ne.
Qed.

Lemma is_node_lookup h a : is_node h a -> exists t, h !! a = Some (ONode t).
Proof. intros [t Ht]. unfold node_at in Ht. destruct (h !! a) as [[]|]; try discriminate. injection Ht as ->. eauto. Qed.

End Exit.

Lemma sem_destroy_ok s v : lock s = Some v -> sem_destroy s = ROk tt (set_lock None s).
Proof. intros H. unfold sem_destroy. by rewrite H. Qed.

Lemma tq_ok s : (fun s0 : state => ROk (thread_queue s0) s0) s = ROk (thread_queue s) s.
Proof. reflexivity. Qed.

Section Cleanup.

Lemma bind_ub {A B} (m : M A) (f : A -> M B) s : m s = RUB -> (m ≫= f) s = RUB.
Proof. intros H. unfold mbind, M_bind. by rewrite H. Qed.

Lemma next_of_delete_ne h x y : x <> y -> next_of (delete x h) y = next_of h y.
Proof. intros Hne. unfold next_of, node_at. by rewrite lookup_delete_ne. Qed.

Lemma walk_next_delete n : forall h x y L z,
  walk_next h y n = Some (L, z) -> x ∉ L -> walk_next (delete x h) y n = Some (L, z).
Proof.
  induction n as [|n IH]; intros h x y L z Hw HxL; [exact Hw|].
  rewrite walk_next_S in Hw |- *.
  destruct (next_of h y) as [[|y'|]|] eqn:Hn; try discriminate.
  destruct (walk_next h y' n) as [[L' z']|] eqn:Hw'; try discriminate.
  injection Hw as <- <-.
  rewrite next_of_delete_ne by (intros ->; apply HxL; left).
  rewrite Hn, (IH h x y' L' z' Hw') by (intros Hx; apply HxL; by right). reflexivity.
Qed.

Lemma next_of_lookup h x v : next_of h x = Some v -> exists t, h !! x = Some (ONode t).
Proof. unfold next_of, node_at. destruct (h !! x) as [[]|]; try discriminate. eauto. Qed.

(** [n] rounds of the free loop free the [n] records met by following
    [next], each once, and leave [curr] at the record after them. *)
Lemma cleanup_loop_walk n : forall x L z s fuel,
  walk_next (heap s) x n = Some (L, z) -> NoDup L ->
  exists s', cleanup_loop (n + fuel) (Ptr x) s = cleanup_loop fuel (Ptr z) s' /\
    (forall y, y ∈ L -> heap s' !! y = None) /\
    (forall y, y ∉ L -> heap s' !! y = heap s !! y).
Proof.
  induction n as [|n IH]; intros x L z s fuel Hw HL.
  - injection Hw as <- <-. exists s. split; [reflexivity|].
    split; [intros y Hy; inversion Hy|done].
  - rewrite walk_next_S in Hw.
    destruct (next_of (heap s) x) as [[|y|]|] eqn:Hn; try discriminate.
    destruct (walk_next (heap s) y n) as [[L' z']|] eqn:Hw'; try discriminate.
    injection Hw as <- <-. apply NoDup_cons in HL as [HxL' HL'].
    destruct (next_of_lookup _ _ _ Hn) as [t Ht].
    change (S n + fuel)%nat with (S (n + fuel)). cbn [cleanup_loop].
    step get_next_ok by exact Hn.
    step free_ok by exact Ht.
    destruct (IH y L' z' (set_heap (delete x (heap s)) s) fuel) as (s' & Hrun & Hdel & Hkeep).
    { rewrite heap_set_heap. by apply walk_next_delete. }
    { exact HL'. }
    exists s'. split; [exact Hrun|]. split.
    + intros w Hw. apply elem_of_cons in Hw as [->|Hw]; [|by apply Hdel].
      rewrite Hkeep by done. rewrite heap_set_heap. apply lookup_delete_eq.
    + intros w Hw. rewrite Hkeep by (intros ?; apply Hw; by right).
      rewrite heap_set_heap, lookup_delete_ne; [done|]. intros ->. apply Hw. left.
Qed.

Lemma ring_walk_next s hd rest :
  ring s (hd :: rest) -> walk_next (heap s) hd (S (length rest)) = Some (hd :: reverse rest, hd) /\
    NoDup (hd :: reverse rest).
Proof.
  intros (q & Hq & Hsz & HND & Hhd & Hch). split.
  - by apply walk_next_chain.
  - apply NoDup_cons in HND as [Hn Hr]. constructor.
    + by rewrite elem_of_reverse.
    + by rewrite reverse_Permutation.
Qed.

End Cleanup.

(** ** Allocation, creation and insertion lemmas *)

Section KeepsQueue.

Lemma keeps_queue_bind {A B} (m : M A) (f : A -> M B) :
  keeps_queue m -> (forall a, keeps_queue (f a)) -> keeps_queue (m ≫= f).
Proof.
  intros Hm Hf s. unfold mbind, M_bind.
  destruct (Hm s) as [->|(a & s1 & -> & Ht1 & Hq1)]; [by left|].
  destruct (Hf a s1) as [->|(b & s2 & -> & Ht2 & Hq2)]; [by left|].
  right. exists b, s2. split; [done|]. split; congruence.
Qed.

Lemma keeps_queue_ret {A} (a : A) : keeps_queue (mret a).
Proof. intros s. right. exists a, s. repeat split. Qed.

Lemma keeps_queue_read {A} (m : M A) :
  (forall s, m s = RUB \/ exists a, m s = ROk a s) -> keeps_queue m.
Proof. intros H s. destruct (H s) as [E|[a E]]; [by left|]. right. by exists a, s. Qed.

Lemma keeps_queue_get_queue : keeps_queue get_queue.
Proof.
  apply keeps_queue_read. intros s. unfold get_queue. destruct (thread_queue s); eauto.
  destruct (heap s !! a) as [[]|]; eauto.
Qed.

Lemma keeps_queue_load_node p : keeps_queue (load_node p).
Proof.
  apply keeps_queue_read. intros s. unfold load_node. destruct p; eauto.
  destruct (heap s !! a) as [[]|]; eauto.
Qed.

Lemma keeps_queue_store_node p t : keeps_queue (store_node p t).
Proof.
  intros s. unfold store_node. destruct p as [|a|]; try by left.
  destruct (heap s !! a) as [[]|] eqn:E; try by left. right. eexists _, _.
  split; [reflexivity|]. split; [reflexivity|].
  unfold queue_of, queue_at. simpl. destruct (thread_queue s) as [|b|]; try done.
  destruct (decide (a = b)) as [->|Hne].
  - by rewrite lookup_insert_eq, E.
  - by rewrite lookup_insert_ne.
Qed.

Lemma keeps_queue_get_next p : keeps_queue (get_next p).
Proof. apply keeps_queue_bind; [apply keeps_queue_load_node|intros; apply keeps_queue_ret]. Qed.

Lemma keeps_queue_set_next p v : keeps_queue (set_next p v).
Proof. apply keeps_queue_bind; [apply keeps_queue_load_node|intros; apply keeps_queue_store_node]. Qed.

Lemma keeps_queue_set_prev p v : keeps_queue (set_prev p v).
Proof. apply keeps_queue_bind; [apply keeps_queue_load_node|intros; apply keeps_queue_store_node]. Qed.

End KeepsQueue.

Lemma qset_qset tq h q1 q2 : qset tq (qset tq h q1) q2 = qset tq h q2.
Proof. unfold qset. destruct tq; try done. by rewrite insert_insert_eq. Qed.

Section Create.

Lemma malloc_ok s o :
  (forall l, oom s <> true :: l) ->
  malloc o s = ROk (Ptr (fresh_addr s))
    (mk_state (<[fresh_addr s := o]> (heap s)) (tail (oom s)) (lock s) (thread_queue s) (swaps s)).
Proof. intros H. unfold malloc. destruct (oom s) as [|[] l]; try done. by destruct (H l). Qed.

Lemma malloc_null s o l :
  oom s = true :: l ->
  malloc o s = ROk Null (mk_state (heap s) l (lock s) (thread_queue s) (swaps s)).
Proof. intros H. unfold malloc. by rewrite H. Qed.

Lemma fresh_addr_none s : heap s !! fresh_addr s = None.
Proof. apply not_elem_of_dom. unfold fresh_addr. apply (is_fresh (dom (heap s))). Qed.

Lemma load_node_ok s a t : heap s !! a = Some (ONode t) -> load_node (Ptr a) s = ROk t s.
Proof. intros H. unfold load_node. by rewrite H. Qed.

Lemma store_node_ok s a t0 t :
  heap s !! a = Some (ONode t0) -> store_node (Ptr a) t s = ROk tt (set_heap (<[a := ONode t]> (heap s)) s).
Proof. intros H. unfold store_node. by rewrite H. Qed.

Lemma load_ctx_ok s c uc : heap s !! c = Some (OCtx uc) -> load_ctx (Ptr c) s = ROk uc s.
Proof. intros H. unfold load_ctx. by rewrite H. Qed.

Lemma store_ctx_ok s c uc uc' :
  heap s !! c = Some (OCtx uc) -> store_ctx (Ptr c) uc' s = ROk tt (set_heap (<[c := OCtx uc']> (heap s)) s).
Proof. intros H. unfold store_ctx. by rewrite H. Qed.

Lemma stack_frame_ok s a : heap s !! a = Some OStack -> stack_frame (Ptr a) s = ROk tt s.
Proof. intros H. unfold stack_frame. by rewrite H. Qed.

Lemma stack_frame_null s : stack_frame Null s = RUB.
Proof. reflexivity. Qed.

Lemma lookup_upd_ne h a f y : a <> y -> upd_node h a f !! y = h !! y.
Proof. intros Hne. unfold upd_node. destruct (h !! a) as [[]|]; try done. by rewrite lookup_insert_ne. Qed.

Lemma lookup_upd_eq h a f t : h !! a = Some (ONode t) -> upd_node h a f !! a = Some (ONode (f t)).
Proof. intros H. unfold upd_node. rewrite H. by rewrite lookup_insert_eq. Qed.

Lemma is_node_of h a t : h !! a = Some (ONode t) -> is_node h a.
Proof. intros H. exists t. unfold node_at. by rewrite H. Qed.

Lemma set_func_ok s a t v :
  heap s !! a = Some (ONode t) ->
  set_func (Ptr a) v s = ROk tt (set_heap (<[a := ONode (set_func_f t v)]> (heap s)) s).
Proof. intros H. unfold set_func. rewrite (bind_ok _ _ _ _ _ (load_node_ok _ _ _ H)). by apply (store_node_ok _ _ t). Qed.

Lemma set_context_ok s a t v :
  heap s !! a = Some (ONode t) ->
  set_context (Ptr a) v s = ROk tt (set_heap (<[a := ONode (set_context_f t v)]> (heap s)) s).
Proof. intros H. unfold set_context. rewrite (bind_ok _ _ _ _ _ (load_node_ok _ _ _ H)). by apply (store_node_ok _ _ t). Qed.

Lemma set_priority_ok' s a t v :
  heap s !! a = Some (ONode t) ->
  set_priority (Ptr a) v s = ROk tt (set_heap (<[a := ONode (set_priority_f t v)]> (heap s)) s).
Proof. intros H. unfold set_priority. rewrite (bind_ok _ _ _ _ _ (load_node_ok _ _ _ H)). by apply (store_node_ok _ _ t). Qed.

Lemma get_context_ok' s a t : heap s !! a = Some (ONode t) -> get_context (Ptr a) s = ROk (context t) s.
Proof. intros H. unfold get_context. by rewrite (bind_ok _ _ _ _ _ (load_node_ok _ _ _ H)). Qed.

Lemma get_func_ok s a t : heap s !! a = Some (ONode t) -> get_func (Ptr a) s = ROk (func t) s.
Proof. intros H. unfold get_func. by rewrite (bind_ok _ _ _ _ _ (load_node_ok _ _ _ H)). Qed.

End Create.

Ltac sn := unfold set_priority_f, set_func_f, set_context_f in *;
  cbn [heap oom lock thread_queue swaps set_heap priority func context next prev ss_sp ss_size uc_entry] in *.

Ltac lkin H := repeat first [ rewrite lookup_insert_eq in H | rewrite lookup_insert_ne in H by congruence ].

Ltac lk := repeat first [ rewrite lookup_insert_eq | rewrite lookup_insert_ne by congruence ].

Lemma ring_insert_fresh s s' P a o :
  ring s P -> heap s !! a = None -> heap s' = <[a := o]> (heap s) ->
  thread_queue s' = thread_queue s -> ring s' P.
Proof.
  intros (q & Hq & Hsz & Hnd & Hsh) Ha Hh Htq. exists q.
  split.
  { unfold queue_of, queue_at in *. rewrite Htq, Hh. destruct (thread_queue s) as [|b|]; try done.
    rewrite lookup_insert_ne; [done|]. intros ->. rewrite Ha in Hq. discriminate. }
  split; [done|]. split; [done|]. destruct P as [|hd rest]; [done|].
  destruct Hsh as [Hhd Hch]. split; [done|]. rewrite Hh.
  apply (chain_frame (heap s)); [|done]. intros y Hy.
  assert (Hay : a <> y).
  { intros ->. destruct (chain_nodes _ _ _ Hch ltac:(simpl; rewrite length_app; simpl; lia) Hy) as [u Hu].
    unfold node_at in Hu. rewrite Ha in Hu. discriminate. }
  unfold prev_of, next_of, node_at. rewrite lookup_insert_ne by done. done.
Qed.

Lemma ring_fresh_notin s P a : ring s P -> heap s !! a = None -> a ∉ P.
Proof.
  intros (q & _ & _ & _ & Hsh) Ha HaP. destruct P as [|hd rest]; [set_solver|].
  destruct Hsh as [_ Hch].
  assert (Hin : a ∈ (hd :: rest) ++ [hd]) by (apply elem_of_app; left; exact HaP).
  destruct (chain_nodes _ _ _ Hch ltac:(simpl; rewrite length_app; simpl; lia) Hin) as [u Hu].
  unfold node_at in Hu. rewrite Ha in Hu. discriminate.
Qed.

(** The successful run of [uthread_create]. *)
Lemma create_spec s f prio P v :
  ring s P -> lock s = Some v -> 0 < v -> Z.of_nat (length P) < INT_MAX ->
  (forall i, (i < 3)%nat -> oom s !! i <> Some true) ->
  exists s' t c sp, uthread_create f prio s = ROk 0 s' /\ ring s' (P ++ [t]) /\
    heap s !! t = None /\ heap s !! c = None /\ heap s !! sp = None /\
    (exists u, node_at (heap s') t = Some u /\ priority u = prio /\ func u = f /\ context u = Ptr c) /\
    heap s' !! c = Some (OCtx (mk_ucontext (Ptr sp) STACK_SIZE (Some f))) /\
    heap s' !! sp = Some OStack /\ lock s' = lock s /\
    (forall y, y <> t -> prio_of (heap s') y = prio_of (heap s) y /\ ctx_of (heap s') y = ctx_of (heap s) y) /\
    oom s' = drop 3 (oom s).
Proof.
  intros Hr Hl Hv Hlen Hoom.
  assert (Ho : (forall l, oom s <> true :: l) /\ (forall l, tail (oom s) <> true :: l) /\
                (forall l, tail (tail (oom s)) <> true :: l)).
  { pose proof (Hoom 0%nat ltac:(lia)) as H0. pose proof (Hoom 1%nat ltac:(lia)) as H1.
    pose proof (Hoom 2%nat ltac:(lia)) as H2.
    destruct (oom s) as [|b0 [|b1 [|b2 r]]]; simpl in *; repeat split; intros l E; try discriminate;
      injection E; intros; subst; done. }
  destruct Ho as (Ho0 & Ho1 & Ho2).
  unfold uthread_create.
  step malloc_ok by exact Ho0.
  sn.
  pose proof (fresh_addr_none s) as Ht. set (t := fresh_addr s) in *. cbv iota beta.
  step set_priority_ok' by (cbn [heap set_heap]; lk; reflexivity).
  sn.
  step set_func_ok by (cbn [heap set_heap]; lk; reflexivity).
  sn.
  step malloc_ok by exact Ho1.
  sn.
  match goal with |- context [fresh_addr ?s1] => pose proof (fresh_addr_none s1) as Hc; set (c := fresh_addr s1) in * end.
  cbn [heap set_heap] in Hc. assert (Hct : c <> t) by (intros E; rewrite E, lookup_insert_eq in Hc; discriminate).
  step set_context_ok by (cbn [heap set_heap]; lk; reflexivity).
  sn.
  step get_context_ok' by (cbn [heap set_heap]; lk; reflexivity). cbn [context set_context_f]. cbv iota beta.
  sn.
  step get_context_ok' by (cbn [heap set_heap]; lk; reflexivity). cbn [context set_context_f].
  sn.
  unfold getcontext.
  step load_ctx_ok by (cbn [heap set_heap]; lk; reflexivity).
  sn.
  step store_ctx_ok by (cbn [heap set_heap]; lk; reflexivity).
  sn.
  step malloc_ok by exact Ho2.
  sn.
  match goal with |- context [fresh_addr ?s1] => pose proof (fresh_addr_none s1) as Hsp; set (sp := fresh_addr s1) in * end.
  cbn [heap set_heap] in Hsp.
  assert (Hspt : sp <> t) by (intros E; rewrite E in Hsp; lkin Hsp; discriminate).
  assert (Hspc : sp <> c) by (intros E; rewrite E in Hsp; lkin Hsp; discriminate).
  cbv iota beta.
  step get_context_ok' by (cbn [heap set_heap]; lk; reflexivity). sn.
  step load_ctx_ok by (cbn [heap set_heap]; lk; reflexivity). sn.
  step store_ctx_ok by (cbn [heap set_heap]; lk; reflexivity). sn.
  step get_context_ok' by (cbn [heap set_heap]; lk; reflexivity). sn.
  step load_ctx_ok by (cbn [heap set_heap]; lk; reflexivity). sn.
  step store_ctx_ok by (cbn [heap set_heap]; lk; reflexivity). sn.
  step get_context_ok' by (cbn [heap set_heap]; lk; reflexivity). sn.
  step get_func_ok by (cbn [heap set_heap]; lk; reflexivity). sn.
  unfold makecontext.
  step load_ctx_ok by (cbn [heap set_heap]; lk; reflexivity). sn.
  step stack_frame_ok by (cbn [heap set_heap]; lk; reflexivity). sn.
  step store_ctx_ok by (cbn [heap set_heap]; lk; reflexivity). sn.
  rewrite ?bind_assoc.
  match goal with |- exists _ _ _ _, (_ ≫= _) ?st = _ /\ _ =>
    assert (Est : st = mk_state (<[c := OCtx (mk_ucontext (Ptr sp) STACK_SIZE (Some f))]>
                      (<[sp := OStack]> (<[t := ONode (mk_uthread prio f (Ptr c) Indet Indet)]> (heap s))))
                      (tail (tail (tail (oom s)))) (lock s) (thread_queue s) (swaps s)) end.
  { unfold set_heap; cbn [heap oom lock thread_queue swaps]. f_equal. apply map_eq. intros y.
    destruct (decide (y = c)) as [->|Hyc]; [lk; reflexivity|].
    destruct (decide (y = sp)) as [->|Hysp]; [lk; reflexivity|].
    destruct (decide (y = t)) as [->|Hyt]; [lk; reflexivity|]. lk. reflexivity. }
  rewrite Est. clear Est.
  assert (Hc0 : heap s !! c = None) by (lkin Hc; exact Hc).
  assert (Hsp0 : heap s !! sp = None) by (lkin Hsp; exact Hsp).
  set (s1 := mk_state _ _ _ _ _).
  assert (Hr1 : ring s1 P).
  { eapply (ring_insert_fresh (set_heap (<[sp := OStack]> (<[t := ONode (mk_uthread prio f (Ptr c) Indet Indet)]> (heap s))) s)); [| |reflexivity|reflexivity].
    - eapply (ring_insert_fresh (set_heap (<[t := ONode (mk_uthread prio f (Ptr c) Indet Indet)]> (heap s)) s)); [| |reflexivity|reflexivity].
      + eapply ring_insert_fresh; [exact Hr|exact Ht|reflexivity|reflexivity].
      + cbn [heap set_heap]. lk. exact Hsp0.
    - cbn [heap set_heap]. lk. exact Hc0. }
  step sem_wait_ok by (exact Hl || exact Hv).
  destruct (add_spec (set_lock (Some (v - 1)) s1) P t) as (s2 & Hadd & Hr2 & Hol).
  { by apply ring_set_lock. }
  { rewrite heap_set_lock. exists (mk_uthread prio f (Ptr c) Indet Indet). unfold node_at, s1. cbn [heap].
    lk. reflexivity. }
  { eapply ring_fresh_notin; [exact Hr|exact Ht]. }
  { exact Hlen. }
  rewrite (bind_ok _ _ _ _ _ Hadd).
  destruct Hol as (Htq2 & Hl2 & Hoom2 & Hsw2 & Hk2) eqn:Hol'.
  step sem_post_ok by (rewrite Hl2; reflexivity).
  set (sm := set_lock (Some (v - 1)) s1) in *.
  assert (Hsm : heap sm = <[c := OCtx (mk_ucontext (Ptr sp) STACK_SIZE (Some f))]>
                      (<[sp := OStack]> (<[t := ONode (mk_uthread prio f (Ptr c) Indet Indet)]> (heap s)))) by reflexivity.
  exists (set_lock (Some (v - 1 + 1)) s2), t, c, sp. rewrite !heap_set_lock.
  split; [reflexivity|]. split; [by apply ring_set_lock|].
  split; [exact Ht|]. split; [exact Hc0|]. split; [exact Hsp0|].
  split.
  { pose proof (ol_node_at _ _ t Hol) as Hk. unfold node_at in Hk at 1. rewrite Hsm in Hk. lkin Hk.
    destruct (node_at (heap s2) t) as [u|]; [|done]. exists u. destruct Hk as (-> & -> & ->). done. }
  split.
  { apply (ol_octx _ _ _ _ Hol). rewrite Hsm. lk. reflexivity. }
  split.
  { pose proof (ol_key _ _ sp Hol) as Hk. rewrite Hsm in Hk. lkin Hk.
    destruct (heap s2 !! sp) as [[]|]; simpl in Hk; congruence. }
  split.
  { unfold set_lock. cbn [lock]. rewrite Hl. f_equal. lia. }
  split.
  { intros y Hyt. rewrite (ol_prio _ _ _ Hol), (ol_ctx _ _ _ Hol).
  unfold prio_of, ctx_of, node_at. rewrite Hsm.
  destruct (decide (y = c)) as [->|Hyc]; [lk; rewrite Hc0; done|].
  destruct (decide (y = sp)) as [->|Hysp]; [lk; rewrite Hsp0; done|].
  lk. done. }
  unfold set_lock. cbn [oom]. rewrite Hoom2. subst sm s1. cbn [oom].
  destruct (oom s) as [|b0 [|b1 [|b2 r]]]; reflexivity.
Qed.

(** The run of [uthread_create] whose stack allocation fails: the
    record and the context are allocated, [ss_sp] is NULL, and
    [makecontext] writes the initial frame through it. *)
Lemma create_stack_oom_ub f prio s l :
  oom s = false :: false :: true :: l -> uthread_create f prio s = RUB.
Proof.
  intros Ho. unfold uthread_create.
  step malloc_ok by (intros l0; rewrite Ho; discriminate). sn.
  pose proof (fresh_addr_none s) as Ht. set (t := fresh_addr s) in *. cbv iota beta.
  step set_priority_ok' by (cbn [heap set_heap]; lk; reflexivity). sn.
  step set_func_ok by (cbn [heap set_heap]; lk; reflexivity). sn.
  step malloc_ok by (intros l0; rewrite Ho; discriminate). sn.
  match goal with |- context [fresh_addr ?s1] => pose proof (fresh_addr_none s1) as Hc; set (c := fresh_addr s1) in * end.
  cbn [heap set_heap] in Hc. assert (Hct : c <> t) by (intros E; rewrite E, lookup_insert_eq in Hc; discriminate).
  step set_context_ok by (cbn [heap set_heap]; lk; reflexivity). sn.
  step get_context_ok' by (cbn [heap set_heap]; lk; reflexivity). cbn [context set_context_f]. cbv iota beta. sn.
  step get_context_ok' by (cbn [heap set_heap]; lk; reflexivity). cbn [context set_context_f]. sn.
  unfold getcontext.
  step load_ctx_ok by (cbn [heap set_heap]; lk; reflexivity). sn.
  step store_ctx_ok by (cbn [heap set_heap]; lk; reflexivity). sn.
  step malloc_null by (rewrite Ho; reflexivity). sn.
  step get_context_ok' by (cbn [heap set_heap]; lk; reflexivity). sn.
  step load_ctx_ok by (cbn [heap set_heap]; lk; reflexivity). sn.
  step store_ctx_ok by (cbn [heap set_heap]; lk; reflexivity). sn.
  step get_context_ok' by (cbn [heap set_heap]; lk; reflexivity). sn.
  step load_ctx_ok by (cbn [heap set_heap]; lk; reflexivity). sn.
  step store_ctx_ok by (cbn [heap set_heap]; lk; reflexivity). sn.
  step get_context_ok' by (cbn [heap set_heap]; lk; reflexivity). sn.
  step get_func_ok by (cbn [heap set_heap]; lk; reflexivity). sn.
  unfold makecontext.
  step load_ctx_ok by (cbn [heap set_heap]; lk; reflexivity). sn.
  rewrite ?bind_assoc. apply bind_ub. apply stack_frame_null.
Qed.

(** ** The claims of the specification *)

(** C1: on a ring [P], [get_priority_thread] returns NULL and changes nothing when [P] is empty; otherwise it returns a record [p] of [P] whose priority is at most the priority of every record of [P], unlinks exactly [p] (the ring becomes [P] without [p], order kept) and changes nothing but links, [head] and [size]. *)
Theorem get_priority_thread_min s P fuel :
  ring s P -> (length P <= fuel)%nat ->
  match P with
  | [] => get_priority_thread fuel s = ROk Null s
  | _ :: _ =>
      exists s' p L1 L2,
        get_priority_thread fuel s = ROk (Ptr p) s' /\ P = L1 ++ p :: L2 /\
        (forall y, y ∈ P -> prio_of (heap s) p <= prio_of (heap s) y) /\
        ring s' (L1 ++ L2) /\ only_links s s'
  end.
Proof.
  intros Hr Hf. destruct P as [|hd rest]; [by apply get_empty|].
  destruct (get_spec s hd rest fuel Hr ltac:(simpl in Hf; lia))
    as (s' & L1 & L2 & Hrun & Hsplit & Hlt & Hle & Hr' & Hol).
  exists s', (sel_from (prio_of (heap s)) hd rest), L1, L2.
  split; [done|]. split; [done|]. split; [|done].
  intros y Hy. rewrite Hsplit in Hy. apply elem_of_app in Hy as [Hy|Hy].
  - rewrite Forall_forall in Hlt. specialize (Hlt y Hy). lia.
  - apply elem_of_cons in Hy as [->|Hy]; [lia|]. rewrite Forall_forall in Hle. by apply Hle.
Qed.

(** C1, witness: the ring [1; 4] of two spawns. *)
Lemma get_priority_thread_min_witness :
  ring (state_of (two_ready init_state)) [1%nat; 4%nat] /\ (length [1%nat; 4%nat] <= 2)%nat /\
  exists s' p L1 L2,
    get_priority_thread 2 (state_of (two_ready init_state)) = ROk (Ptr p) s' /\
    [1%nat; 4%nat] = L1 ++ p :: L2 /\
    (forall y, y ∈ [1%nat; 4%nat] -> prio_of (heap (state_of (two_ready init_state))) p <= prio_of (heap (state_of (two_ready init_state))) y) /\
    ring s' (L1 ++ L2) /\ only_links (state_of (two_ready init_state)) s'.
Proof.
  split; [ring_conc|]. split; [simpl; lia|].
  apply (get_priority_thread_min (state_of (two_ready init_state)) [1%nat; 4%nat] 2); [ring_conc|simpl; lia].
Defined.

(** C2: tie-break. On a ring, a record [y] that follows in scan order (the insertion order) a record [x] of the same priority is never the record returned. From a running spawned thread, spawning f and g at priority 5 and yielding at priority 5 switches to f's context (5). From the initial thread the same sequence is undefined behaviour: [system_init] never sets [active], and [uthread_yield] writes the priority of [active]. *)
Theorem get_priority_thread_fifo_tie :
  (forall s L1 x L2 y L3 fuel, ring s (L1 ++ x :: L2 ++ y :: L3) ->
     prio_of (heap s) x = prio_of (heap s) y -> (length (L1 ++ x :: L2 ++ y :: L3) <= fuel)%nat ->
     exists s' p, get_priority_thread fuel s = ROk (Ptr p) s' /\ p <> y) /\
  (exists s', tie_from_thread init_state = ROk 0 s' /\ swaps s' = [(Ptr 2, Ptr 5)]) /\
  tie_yield init_state = RUB.
Proof.
  split; [exact get_priority_thread_fifo|]. split.
  - eexists. split; [vm_compute; reflexivity|reflexivity].
  - vm_compute. reflexivity.
Qed.

(** C2, witness: two ready records of equal priority; the later one (4) is not selected. *)
Lemma get_priority_thread_fifo_tie_witness :
  exists s' p, get_priority_thread 2 (state_of (tie_ready init_state)) = ROk (Ptr p) s' /\ p <> 4%nat.
Proof.
  apply (proj1 get_priority_thread_fifo_tie (state_of (tie_ready init_state)) [] 1%nat [] 4%nat [] 2%nat);
    [cbn [app]; ring_conc|vm_compute; reflexivity|simpl; lia].
Defined.

(** C3: [uthread_create] does not check the stack allocation. When the
    record and the context are allocated and [malloc(STACK_SIZE)] returns
    NULL, the call does not return -1: [makecontext] writes the initial
    frame through the NULL stack pointer, undefined behaviour. This holds
    for every state, and for the first spawn right after [system_init]. *)
Theorem uthread_create_stack_oom :
  (forall f prio s l, oom s = false :: false :: true :: l -> uthread_create f prio s = RUB) /\
  (system_init ;; uthread_create 1 5) stack_oom_state = RUB.
Proof.
  split.
  - intros f prio s l Ho. exact (create_stack_oom_ub f prio s l Ho).
  - vm_compute. reflexivity.
Qed.

(** C3, witness: the record and the context are allocated, the stack is not. *)
Lemma uthread_create_stack_oom_witness :
  oom (mk_state ∅ [false; false; true] None Null []) = false :: false :: true :: [] /\
  uthread_create 1 5 (mk_state ∅ [false; false; true] None Null []) = RUB.
Proof.
  split; [reflexivity|].
  exact (proj1 uthread_create_stack_oom 1%nat 5 (mk_state ∅ [false; false; true] None Null []) [] eq_refl).
Defined.

(** C4: with [size == 0], [uthread_yield] returns -1 and the state is unchanged (the guard is taken and given back). *)
Theorem uthread_yield_empty fuel prio s q v :
  queue_of s = Some q -> size q = 0 -> lock s = Some v -> 0 < v ->
  uthread_yield fuel prio s = ROk (-1) s.
Proof.
  intros Hq Hsz Hl Hv. unfold uthread_yield.
  step sem_wait_ok by (exact Hl || exact Hv).
  step get_queue_ok by (rewrite queue_of_set_lock; exact Hq).
  rewrite Hsz. cbn [Z.eqb].
  step sem_post_ok by reflexivity.
  rewrite set_lock_set_lock, Z.sub_add, set_lock_same by done. reflexivity.
Qed.

(** C4, witness: right after [system_init]. *)
Lemma uthread_yield_empty_witness :
  queue_of init_done = Some (mk_queue Indet 0 Indet) /\ size (mk_queue Indet 0 Indet) = 0 /\
  lock init_done = Some 1 /\ 0 < 1 /\ uthread_yield 10 3 init_done = ROk (-1) init_done.
Proof.
  split; [vm_compute; reflexivity|]. split; [reflexivity|]. split; [vm_compute; reflexivity|].
  split; [lia|]. apply (uthread_yield_empty 10 3 init_done (mk_queue Indet 0 Indet) 1);
    [vm_compute; reflexivity|reflexivity|vm_compute; reflexivity|lia].
Defined.

(** C5 (as amended): [uthread_yield] from a running record [A] with a non-empty ring selects the ready record of smallest priority BEFORE [A] is put back, so the record selected is never [A]. [A] is then appended to the ring with its new priority, the selected record becomes [active] and the context switch goes from the context of [A] to the context of the selected record. *)
Theorem uthread_yield_selects_other s hd rest A fuel prio v q :
  ring s (hd :: rest) -> queue_of s = Some q -> active q = Ptr A -> is_node (heap s) A ->
  A ∉ hd :: rest -> (forall y, y ∈ A :: hd :: rest -> ctx_ok (heap s) y) ->
  lock s = Some v -> 0 < v -> (length rest < fuel)%nat -> Z.of_nat (length rest) < INT_MAX ->
  exists s' L1 L2 cA cp,
    uthread_yield fuel prio s = ROk 0 s' /\
    hd :: rest = L1 ++ sel_from (prio_of (heap s)) hd rest :: L2 /\
    sel_from (prio_of (heap s)) hd rest <> A /\
    ring s' ((L1 ++ L2) ++ [A]) /\ prio_of (heap s') A = prio /\
    (exists q', queue_of s' = Some q' /\ active q' = Ptr (sel_from (prio_of (heap s)) hd rest)) /\
    ctx_of (heap s) A = Some cA /\ ctx_of (heap s) (sel_from (prio_of (heap s)) hd rest) = Some cp /\
    swaps s' = swaps s ++ [(cA, cp)] /\ lock s' = Some v.
Proof.
  intros Hr Hq HA HnA HAP Hctx Hl Hv Hf Hmax.
  pose proof Hr as (q0 & Hq0 & Hsz & _). rewrite Hq in Hq0. injection Hq0 as <-.
  unfold uthread_yield.
  step sem_wait_ok by (exact Hl || exact Hv).
  step get_queue_ok by (rewrite queue_of_set_lock; exact Hq).
  assert (E0 : Z.eqb (size q) 0 = false) by (rewrite Hsz; simpl; lia).
  rewrite E0. cbv iota.
  step get_queue_ok by (rewrite queue_of_set_lock; exact Hq). rewrite HA.
  step set_priority_ok by (exact HnA).
  set (s2 := set_heap (upd_node (heap (set_lock (Some (v - 1)) s)) A (fun t => set_priority_f t prio))
               (set_lock (Some (v - 1)) s)).
  assert (Hr2 : ring s2 (hd :: rest)) by (apply ring_upd_prio; by apply ring_set_lock).
  assert (Hpr2 : forall y, y ∈ hd :: rest -> prio_of (heap s2) y = prio_of (heap s) y).
  { intros y Hy. apply prio_of_upd_prio_ne. set_solver. }
  destruct (get_spec s2 hd rest fuel Hr2 Hf) as (s3 & L1 & L2 & Hrun & Hsplit & _ & _ & Hr3 & Hol3).
  rewrite (sel_from_ext (prio_of (heap s2)) (prio_of (heap s))) in Hrun, Hsplit by exact Hpr2.
  set (p := sel_from (prio_of (heap s)) hd rest) in *.
  assert (HpP : p ∈ hd :: rest) by (rewrite Hsplit; set_solver).
  assert (HpA : p <> A) by (intros ->; contradiction).
  rewrite ?bind_assoc. rewrite (bind_ok _ _ _ _ _ Hrun). cbv beta.
  assert (Hq2 : queue_of s2 = Some q) by (unfold s2; rewrite queue_of_set_heap, queue_at_upd; exact Hq).
  destruct (ol_queue s2 s3 q Hol3 Hq2) as (q3 & Hq3 & Hact3). rewrite HA in Hact3.
  step get_queue_ok by exact Hq3. rewrite Hact3.
  assert (HnA2 : is_node (heap s2) A) by (unfold s2; rewrite heap_set_heap, is_node_upd; exact HnA).
  assert (Hlen : length (L1 ++ L2) = length rest).
  { apply (f_equal length) in Hsplit. rewrite !length_app in Hsplit |- *. cbn [length] in Hsplit. lia. }
  destruct (add_spec s3 (L1 ++ L2) A Hr3 (ol_is_node s2 s3 A Hol3 HnA2)
              ltac:(rewrite Hsplit in HAP; set_solver) ltac:(rewrite Hlen; exact Hmax))
    as (s4 & Hadd & Hr4 & Hol4).
  rewrite ?bind_assoc. rewrite (bind_ok _ _ _ _ _ Hadd). cbv beta.
  pose proof Hr4 as (q4 & Hq4 & _).
  step set_active_ok by exact Hq4.
  assert (Hl4 : lock s4 = Some (v - 1)).
  { destruct Hol4 as (_ & -> & _). destruct Hol3 as (_ & -> & _). reflexivity. }
  step sem_post_ok by (rewrite lock_set_heap; exact Hl4).
  assert (Hctx4 : forall y, ctx_of (heap s4) y = ctx_of (heap s) y).
  { intros y. rewrite (ol_ctx s3 s4 y Hol4), (ol_ctx s2 s3 y Hol3). unfold s2.
    rewrite heap_set_heap, ctx_of_upd_prio. reflexivity. }
  assert (Hoctx4 : forall c uc, heap s !! c = Some (OCtx uc) ->
            heap (set_lock (Some (v - 1 + 1)) (set_heap (qset (thread_queue s4) (heap s4) (mk_queue (head q4) (size q4) (Ptr p))) s4)) !! c = Some (OCtx uc)).
  { intros c uc Hc. rewrite heap_set_lock, heap_set_heap. apply lookup_qset_octx; [by exists q4|].
    apply (ol_octx s3 s4 c uc Hol4), (ol_octx s2 s3 c uc Hol3). unfold s2. rewrite heap_set_heap.
    by apply lookup_upd_octx. }
  destruct (Hctx A ltac:(set_solver)) as (cA & ucA & HcA & HoA).
  destruct (Hctx p ltac:(set_solver)) as (cp & ucp & Hcp & Hop).
  step get_context_ok by (rewrite heap_set_lock, heap_set_heap; hsimp; rewrite Hctx4; exact HcA).
  step get_context_ok by (rewrite heap_set_lock, heap_set_heap; hsimp; rewrite Hctx4; exact Hcp).
  step swapcontext_ok by (apply Hoctx4; eassumption).
  rewrite ret_ok.
  eexists; exists L1, L2, (Ptr cA), (Ptr cp). split; [reflexivity|].
  split; [done|]. split; [done|]. split.
  { change (ring (set_lock (Some (v - 1 + 1)) (set_heap (qset (thread_queue s4) (heap s4)
              (mk_queue (head q4) (size q4) (Ptr p))) s4)) ((L1 ++ L2) ++ [A])).
    apply ring_set_lock. by apply (ring_qset_q s4 q4). }
  split.
  { cbn [heap]. rewrite heap_set_lock, heap_set_heap, prio_of_qset by (by exists q4).
    rewrite (ol_prio s3 s4 A Hol4), (ol_prio s2 s3 A Hol3). unfold s2. rewrite heap_set_heap.
    apply prio_of_upd_prio_eq. exact HnA. }
  split.
  { exists (mk_queue (head q4) (size q4) (Ptr p)). split; [|reflexivity]. unfold queue_of. cbn [heap thread_queue].
    rewrite heap_set_lock, heap_set_heap, tq_set_lock, tq_set_heap. apply queue_at_qset. by exists q4. }
  split; [done|]. split; [done|]. split.
  { cbn [swaps]. rewrite swaps_set_lock, swaps_set_heap.
    destruct Hol4 as (_ & _ & _ & -> & _). destruct Hol3 as (_ & _ & _ & -> & _). reflexivity. }
  cbn [lock]. rewrite lock_set_lock. f_equal. lia.
Qed.

(** C5, witness: record 4 running, record 1 ready. *)
Lemma uthread_yield_selects_other_witness :
  exists s' L1 L2 cA cp, uthread_yield 10 1 one_running_state = ROk 0 s' /\
    [1%nat] = L1 ++ sel_from (prio_of (heap one_running_state)) 1 [] :: L2 /\
    sel_from (prio_of (heap one_running_state)) 1 [] <> 4%nat /\
    ring s' ((L1 ++ L2) ++ [4%nat]) /\ prio_of (heap s') 4 = 1 /\
    (exists q', queue_of s' = Some q' /\ active q' = Ptr (sel_from (prio_of (heap one_running_state)) 1 [])) /\
    ctx_of (heap one_running_state) 4 = Some cA /\
    ctx_of (heap one_running_state) (sel_from (prio_of (heap one_running_state)) 1 []) = Some cp /\
    swaps s' = swaps one_running_state ++ [(cA, cp)] /\ lock s' = Some 1.
Proof.
  apply (uthread_yield_selects_other one_running_state 1%nat [] 4%nat 10%nat 1 1 (mk_queue (Ptr 1) 1 (Ptr 4))).
  - ring_conc.
  - vm_compute. reflexivity.
  - reflexivity.
  - eexists. vm_compute. reflexivity.
  - set_solver.
  - intros y Hy.
    repeat (apply elem_of_cons in Hy as [->|Hy]; [do 2 eexists; split; vm_compute; reflexivity|]).
    inversion Hy.
  - vm_compute. reflexivity.
  - lia.
  - simpl. lia.
  - vm_compute. reflexivity.
Defined.

(** C5, counterexample: the running record 4 yields with priority 1, below the priority 9 of the only ready record 1; the switch still goes to record 1 (context 5 to context 2), and record 4 is left ready with priority 1. *)
Lemma uthread_yield_no_self_select :
  exists s', uthread_yield 10 1 one_running_state = ROk 0 s' /\
    queue_of s' = Some (mk_queue (Ptr 4) 1 (Ptr 1)) /\
    prio_of (heap s') 4 = 1 /\ prio_of (heap s') 1 = 9 /\ swaps s' = [(Ptr 5, Ptr 2)].
Proof.
  eexists. split; [vm_compute; reflexivity|]. vm_compute. repeat split.
Qed.

(** C6: a ring (distinct records, [size] their number, [head] the first, linked circularly) is connected circularly both ways, with [size] records met from [head] along [next] before coming back to [head]; [add] of a new record and [get_priority_thread] both leave a ring, hence again a circularly connected one. *)
Theorem ring_invariant_preserved s P :
  ring s P -> circular s /\
  (forall x, is_node (heap s) x -> x ∉ P -> Z.of_nat (length P) < INT_MAX ->
     exists s', add (Ptr x) s = ROk tt s' /\ ring s' (P ++ [x]) /\ circular s') /\
  (forall fuel, (length P <= fuel)%nat ->
     exists r s' P', get_priority_thread fuel s = ROk r s' /\ ring s' P' /\ circular s').
Proof.
  intros Hr. split; [exact (ring_circular s P Hr)|]. split.
  - intros x Hx HxP Hlen. destruct (add_spec s P x Hr Hx HxP Hlen) as (s' & Hadd & Hr' & _).
    exists s'. split; [done|]. split; [done|]. exact (ring_circular _ _ Hr').
  - intros fuel Hf. destruct P as [|hd rest].
    + exists Null, s, []. split; [by apply get_empty|]. split; [done|]. exact (ring_circular s [] Hr).
    + destruct (get_spec s hd rest fuel Hr) as (s' & L1 & L2 & Hget & _ & _ & _ & Hr' & _);
        [simpl in Hf; lia|].
      eexists _, s', (L1 ++ L2). split; [exact Hget|]. split; [done|]. exact (ring_circular _ _ Hr').
Qed.

(** C6, witness: the ring [1; 4] of two spawns. *)
Lemma ring_invariant_preserved_witness :
  circular two_ready_state /\
  (forall x, is_node (heap two_ready_state) x -> x ∉ [1%nat; 4%nat] ->
     Z.of_nat (length [1%nat; 4%nat]) < INT_MAX ->
     exists s', add (Ptr x) two_ready_state = ROk tt s' /\ ring s' ([1%nat; 4%nat] ++ [x]) /\ circular s') /\
  (forall fuel, (length [1%nat; 4%nat] <= fuel)%nat ->
     exists r s' P', get_priority_thread fuel two_ready_state = ROk r s' /\ ring s' P' /\ circular s').
Proof. apply (ring_invariant_preserved two_ready_state [1%nat; 4%nat]). ring_conc. Defined.

(** C7 (as amended): [uthread_exit] from a running record [A] with a non-empty ring selects and unlinks the ready record [p] of smallest priority, frees the record [A] and nothing else (every other address keeps its allocation status, the context of [A] is untouched), makes [p] [active], gives the guard back and jumps into the context of [p]. *)
Theorem uthread_exit_frees_record_only s hd rest A fuel v q :
  ring s (hd :: rest) -> queue_of s = Some q -> active q = Ptr A -> is_node (heap s) A ->
  A ∉ hd :: rest -> ctx_ok (heap s) A -> (forall y, y ∈ hd :: rest -> ctx_ok (heap s) y) ->
  lock s = Some v -> 0 < v -> (length rest < fuel)%nat ->
  exists s' L1 L2 c,
    uthread_exit fuel s = RJump c s' /\
    hd :: rest = L1 ++ sel_from (prio_of (heap s)) hd rest :: L2 /\
    ctx_of (heap s) (sel_from (prio_of (heap s)) hd rest) = Some c /\
    ring s' (L1 ++ L2) /\
    (exists q', queue_of s' = Some q' /\ active q' = Ptr (sel_from (prio_of (heap s)) hd rest)) /\
    heap s' !! A = None /\
    (forall y, y <> A -> (heap s' !! y = None <-> heap s !! y = None)) /\
    (forall c', ctx_of (heap s) A = Some (Ptr c') -> heap s' !! c' = heap s !! c') /\
    lock s' = Some v.
Proof.
  intros Hr Hq HA HnA HAP HcA Hctx Hl Hv Hf.
  pose proof Hr as (q0 & Hq0 & Hsz & _). rewrite Hq in Hq0. injection Hq0 as <-.
  unfold uthread_exit.
  step sem_wait_ok by (exact Hl || exact Hv).
  step get_queue_ok by (rewrite queue_of_set_lock; exact Hq).
  assert (E0 : Z.eqb (size q) 0 = false) by (rewrite Hsz; simpl; lia).
  rewrite E0. cbv iota.
  set (s1 := set_lock (Some (v - 1)) s).
  assert (Hr1 : ring s1 (hd :: rest)) by (by apply ring_set_lock).
  destruct (get_spec s1 hd rest fuel Hr1 Hf) as (s3 & L1 & L2 & Hrun & Hsplit & _ & _ & Hr3 & Hol3).
  change (heap s1) with (heap s) in Hrun, Hsplit.
  set (p := sel_from (prio_of (heap s)) hd rest) in *.
  assert (HpP : p ∈ hd :: rest) by (rewrite Hsplit; set_solver).
  assert (HpA : p <> A) by (intros ->; contradiction).
  rewrite ?bind_assoc. rewrite (bind_ok _ _ _ _ _ Hrun). cbv beta.
  destruct (ol_queue s1 s3 q Hol3 Hq) as (q3 & Hq3 & Hact3). rewrite HA in Hact3.
  step get_queue_ok by exact Hq3. rewrite Hact3.
  assert (HnA3 : is_node (heap s3) A) by (exact (ol_is_node s1 s3 A Hol3 HnA)).
  destruct (is_node_lookup _ _ HnA3) as (tA & HtA).
  step free_ok by exact HtA.
  assert (HAP' : A ∉ L1 ++ L2) by (rewrite Hsplit in HAP; set_solver).
  pose proof (ring_delete s3 (L1 ++ L2) A Hr3 HAP' HnA3) as Hr4.
  assert (Hq4 : queue_of (set_heap (delete A (heap s3)) s3) = Some q3)
    by (rewrite queue_of_set_heap, queue_at_delete_node; done).
  step set_active_ok by exact Hq4.
  assert (Hl3 : lock s3 = Some (v - 1)) by (destruct Hol3 as (_ & -> & _); reflexivity).
  step sem_post_ok by (rewrite ?lock_set_heap; exact Hl3).
  destruct (Hctx p HpP) as (cp & ucp & Hcp & Hop).
  assert (Hex3 : exists q0, queue_at (thread_queue s3) (delete A (heap s3)) = Some q0)
    by (exists q3; rewrite queue_at_delete_node; done).
  step get_context_ok by (rewrite heap_set_lock, heap_set_heap, ctx_of_qset by exact Hex3;
    unfold ctx_of; rewrite node_at_delete_ne by congruence; fold (ctx_of (heap s3) p);
    rewrite (ol_ctx s1 s3 p Hol3); exact Hcp).
  assert (Hoctx : forall c uc, heap s !! c = Some (OCtx uc) ->
            qset (thread_queue s3) (delete A (heap s3)) (mk_queue (head q3) (size q3) (Ptr p)) !! c = Some (OCtx uc)).
  { intros c uc Hc. apply lookup_qset_octx; [exact Hex3|].
    assert (Hc3 : heap s3 !! c = Some (OCtx uc)) by (by apply (ol_octx s1 s3)).
    rewrite lookup_delete_ne; [done|]. intros ->. congruence. }
  eexists; exists L1, L2, (Ptr cp).
  split; [apply (setcontext_ok _ _ ucp); rewrite heap_set_lock, heap_set_heap; by apply Hoctx|].
  split; [done|]. split; [done|]. split.
  { apply ring_set_lock.
    pose proof (ring_qset_q _ q3 (mk_queue (head q3) (size q3) (Ptr p)) _ Hq4 eq_refl eq_refl Hr4) as HR.
    rewrite tq_set_heap, heap_set_heap, set_heap_set_heap in HR. exact HR. }
  split.
  { exists (mk_queue (head q3) (size q3) (Ptr p)). split; [|reflexivity].
    unfold queue_of. rewrite heap_set_lock, heap_set_heap, tq_set_lock, tq_set_heap.
    apply queue_at_qset. exact Hex3. }
  split.
  { rewrite heap_set_lock, heap_set_heap. apply lookup_qset_is_none; [exact Hex3|].
    apply lookup_delete_eq. }
  split.
  { intros y Hy. rewrite heap_set_lock, heap_set_heap, lookup_qset_is_none by exact Hex3.
    rewrite lookup_delete_ne by congruence. exact (ol_none s1 s3 y Hol3). }
  split.
  { intros c' Hc'. destruct HcA as (cA & ucA & HcA & HoA). rewrite Hc' in HcA. injection HcA as <-.
    rewrite heap_set_lock, heap_set_heap, HoA. by apply Hoctx. }
  rewrite lock_set_lock. f_equal. lia.
Qed.

(** C7, witness: record 4 running, record 1 ready. *)
Lemma uthread_exit_frees_record_only_witness :
  exists s' L1 L2 c, uthread_exit 10 one_running_state = RJump c s' /\
    [1%nat] = L1 ++ sel_from (prio_of (heap one_running_state)) 1 [] :: L2 /\
    ctx_of (heap one_running_state) (sel_from (prio_of (heap one_running_state)) 1 []) = Some c /\
    ring s' (L1 ++ L2) /\
    (exists q', queue_of s' = Some q' /\ active q' = Ptr (sel_from (prio_of (heap one_running_state)) 1 [])) /\
    heap s' !! 4%nat = None /\
    (forall y, y <> 4%nat -> (heap s' !! y = None <-> heap one_running_state !! y = None)) /\
    (forall c', ctx_of (heap one_running_state) 4 = Some (Ptr c') -> heap s' !! c' = heap one_running_state !! c') /\
    lock s' = Some 1.
Proof.
  apply (uthread_exit_frees_record_only one_running_state 1%nat [] 4%nat 10%nat 1 (mk_queue (Ptr 1) 1 (Ptr 4))).
  - ring_conc.
  - vm_compute. reflexivity.
  - reflexivity.
  - eexists. vm_compute. reflexivity.
  - set_solver.
  - do 2 eexists. split; vm_compute; reflexivity.
  - intros y Hy.
    repeat (apply elem_of_cons in Hy as [->|Hy]; [do 2 eexists; split; vm_compute; reflexivity|]).
    inversion Hy.
  - vm_compute. reflexivity.
  - lia.
  - simpl. lia.
Defined.

(** C7, counterexample: the running record 4 exits and the jump goes to context 2 of record 1; record 4 is freed but its context 5 and its stack 6 stay allocated. *)
Lemma uthread_exit_keeps_context :
  exists s', uthread_exit 10 one_running_state = RJump (Ptr 2) s' /\
    heap s' !! 4%nat = None /\ ctx_of (heap one_running_state) 4 = Some (Ptr 5) /\
    (exists uc, heap s' !! 5%nat = Some (OCtx uc)) /\ heap s' !! 6%nat = Some OStack.
Proof.
  eexists. split; [vm_compute; reflexivity|]. split; [vm_compute; reflexivity|].
  split; [vm_compute; reflexivity|]. split; [eexists; vm_compute; reflexivity|].
  vm_compute. reflexivity.
Qed.

(** C8 (as amended): [uthread_exit] with an empty ring ([size == 0], [head == NULL]) frees exactly the [active] record and the queue, destroys the guard and exits with status 0; the context and the stack of the [active] record are not freed. *)
Theorem uthread_exit_last s q A qa fuel v :
  thread_queue s = Ptr qa -> queue_of s = Some q -> size q = 0 -> head q = Null ->
  active q = Ptr A -> is_node (heap s) A -> lock s = Some v -> 0 < v -> (1 <= fuel)%nat ->
  exists s', uthread_exit fuel s = RExit 0 s' /\
    heap s' = delete qa (delete A (heap s)) /\ lock s' = None.
Proof.
  intros Htq Hq Hsz Hhd Hact HnA Hl Hv Hf. unfold uthread_exit.
  step sem_wait_ok by (exact Hl || exact Hv).
  step get_queue_ok by (rewrite queue_of_set_lock; exact Hq).
  rewrite Hsz. cbn [Z.eqb].
  step sem_post_ok by reflexivity.
  rewrite set_lock_set_lock, Z.sub_add, set_lock_same by done.
  step tq_ok by idtac.
  unfold cleanup_queue.
  step get_queue_ok by exact Hq.
  rewrite Hhd. destruct fuel as [|f]; [lia|]. cbn [cleanup_loop].
  step (ret_ok (A:=unit)) by idtac.
  step get_queue_ok by exact Hq.
  rewrite Hact, Htq.
  destruct (is_node_lookup _ _ HnA) as [t Ht].
  assert (Hqa : exists uq, heap s !! qa = Some (OQueue uq)).
  { unfold queue_of, queue_at in Hq. rewrite Htq in Hq.
    destruct (heap s !! qa) as [[]|]; try discriminate. eauto. }
  destruct Hqa as [uq Hqa].
  step free_ok by exact Ht.
  step free_ok by (rewrite ?heap_set_heap, lookup_delete_ne; [exact Hqa|]; intros ->; congruence).
  step sem_destroy_ok by (rewrite lock_set_heap; exact Hl).
  eexists. split; [reflexivity|]. split; reflexivity.
Qed.

(** C8, witness: record 1 running, ring empty. *)
Lemma uthread_exit_last_witness :
  exists s', uthread_exit 10 last_running_state = RExit 0 s' /\
    heap s' = delete 0%nat (delete 1%nat (heap last_running_state)) /\ lock s' = None.
Proof.
  apply (uthread_exit_last last_running_state (mk_queue Null 0 (Ptr 1)) 1%nat 0%nat 10%nat 1);
    try (vm_compute; reflexivity); try lia.
  eexists. vm_compute. reflexivity.
Defined.

(** C8, counterexample: the last record 1 exits with status 0, but its context 2 and its stack 3 stay allocated. *)
Lemma uthread_exit_last_keeps_context :
  exists s', uthread_exit 10 last_running_state = RExit 0 s' /\
    ctx_of (heap last_running_state) 1 = Some (Ptr 2) /\
    heap s' !! 0%nat = None /\ heap s' !! 1%nat = None /\
    (exists uc, heap s' !! 2%nat = Some (OCtx uc)) /\ heap s' !! 3%nat = Some OStack.
Proof.
  eexists. split; [vm_compute; reflexivity|]. split; [vm_compute; reflexivity|].
  split; [vm_compute; reflexivity|]. split; [vm_compute; reflexivity|].
  split; [eexists; vm_compute; reflexivity|]. vm_compute. reflexivity.
Qed.

(** C9: [system_init] sets neither [active] nor [head]: both stay indeterminate, and the [main] of the test program (system_init, one uthread_create, uthread_exit) is undefined behaviour, since [uthread_exit] frees the indeterminate [active]. *)
Theorem system_init_leaves_active_unset :
  (exists q, queue_of init_done = Some q /\ active q = Indet /\ head q = Indet) /\
  test_main init_state = RUB.
Proof. split; [eexists; split; [vm_compute; reflexivity|]; split; reflexivity|]. vm_compute. reflexivity. Qed.

(** C10 (as amended): with [head == NULL], [cleanup_queue] stops at once and frees the [active] record and the queue; on a non-empty ring it frees each record once, comes back to the freed [head] and reads its [next] field, undefined behaviour after a bounded number of steps rather than an endless loop. *)
Theorem cleanup_queue_needs_empty_ring :
  (forall s q A qa fuel, thread_queue s = Ptr qa -> queue_of s = Some q -> head q = Null ->
     active q = Ptr A -> is_node (heap s) A -> (1 <= fuel)%nat ->
     cleanup_queue fuel (thread_queue s) s = ROk tt (set_heap (delete qa (delete A (heap s))) s)) /\
  (forall s hd rest fuel, ring s (hd :: rest) -> (S (length rest) < fuel)%nat ->
     cleanup_queue fuel (thread_queue s) s = RUB).
Proof.
  split.
  - intros s q A qa fuel Htq Hq Hhd Hact HnA Hf. unfold cleanup_queue.
    step get_queue_ok by exact Hq.
    rewrite Hhd. destruct fuel as [|f]; [lia|]. cbn [cleanup_loop].
    step (ret_ok (A:=unit)) by idtac.
    step get_queue_ok by exact Hq.
    rewrite Hact, Htq.
    destruct (is_node_lookup _ _ HnA) as [t Ht].
    assert (Hqa : exists uq, heap s !! qa = Some (OQueue uq)).
    { unfold queue_of, queue_at in Hq. rewrite Htq in Hq.
      destruct (heap s !! qa) as [[]|]; try discriminate. eauto. }
    destruct Hqa as [uq Hqa].
    step free_ok by exact Ht.
    erewrite free_ok; [reflexivity|].
    rewrite heap_set_heap, lookup_delete_ne; [exact Hqa|]. intros ->. congruence.
  - intros s hd rest fuel Hr Hf.
    pose proof Hr as (q & Hq & _ & _ & Hhd & _).
    destruct (ring_walk_next s hd rest Hr) as [Hw HND].
    unfold cleanup_queue.
    step get_queue_ok by exact Hq.
    rewrite Hhd.
    replace fuel with (S (length rest) + S (fuel - S (S (length rest))))%nat by lia.
    destruct (cleanup_loop_walk _ hd _ hd s (S (fuel - S (S (length rest)))) Hw HND)
      as (s' & Hrun & Hdel & _).
    rewrite ?bind_assoc. apply bind_ub. rewrite Hrun. cbn [cleanup_loop].
    apply bind_ub. unfold get_next, load_node, mbind, M_bind. rewrite Hdel by left. reflexivity.
Qed.

(** C10, witness: an empty ring after the last dispatch, and the two-record ring of [tie_ready]. *)
Lemma cleanup_queue_needs_empty_ring_witness :
  cleanup_queue 10 (thread_queue last_running_state) last_running_state =
    ROk tt (set_heap (delete 0%nat (delete 1%nat (heap last_running_state))) last_running_state) /\
  cleanup_queue 10 (thread_queue tie_ready_state) tie_ready_state = RUB.
Proof.
  split.
  - apply (proj1 cleanup_queue_needs_empty_ring last_running_state (mk_queue Null 0 (Ptr 1)) 1%nat 0%nat 10%nat);
      try (vm_compute; reflexivity); try lia.
    eexists. vm_compute. reflexivity.
  - apply (proj2 cleanup_queue_needs_empty_ring tie_ready_state 1%nat [4%nat] 10%nat); [ring_conc|simpl; lia].
Defined.

(** C10, counterexample: on the two-record ring, with fuel for ten rounds, the loop does not run on; it ends in undefined behaviour (the read of [next] in the freed head record). *)
Lemma cleanup_queue_nonempty_ub :
  cleanup_queue 10 (thread_queue tie_ready_state) tie_ready_state = RUB.
Proof. vm_compute. reflexivity. Qed.

(** ** Further properties of the code *)

(** X1: [add] of a record [x] that is not in the ring [P] succeeds whenever [size] is below INT_MAX; the ring becomes [P ++ [x]] (appended at the end of the scan order) and nothing changes but the links, [head] and [size]. *)
Theorem add_appends s P x :
  ring s P -> is_node (heap s) x -> x ∉ P -> Z.of_nat (length P) < INT_MAX ->
  exists s', add (Ptr x) s = ROk tt s' /\ ring s' (P ++ [x]) /\ only_links s s'.
Proof. apply add_spec. Qed.

(** X1, witness. *)
Lemma add_appends_witness :
  ring one_running_state [1%nat] /\ is_node (heap one_running_state) 4%nat /\ (4%nat ∉ [1%nat]) /\
  Z.of_nat (length [1%nat]) < INT_MAX /\
  exists s', add (Ptr 4) one_running_state = ROk tt s' /\ ring s' ([1%nat] ++ [4%nat]) /\
    only_links one_running_state s'.
Proof.
  assert (Hr : ring one_running_state [1%nat]) by ring_conc.
  assert (Hn : is_node (heap one_running_state) 4%nat) by (eexists; vm_compute; reflexivity).
  assert (Hx : 4%nat ∉ [1%nat]) by set_solver.
  assert (Hl : Z.of_nat (length [1%nat]) < INT_MAX) by (vm_compute; reflexivity).
  split; [exact Hr|]. split; [exact Hn|]. split; [exact Hx|]. split; [exact Hl|].
  apply (add_appends one_running_state [1%nat] 4%nat Hr Hn Hx Hl).
Defined.

(** X2: when [size] already equals INT_MAX, [add] is undefined behaviour: the final [size++] overflows a signed int. *)
Theorem add_size_overflow s q p :
  queue_of s = Some q -> size q = INT_MAX -> add p s = RUB.
Proof.
  intros Hq Hsz. unfold add.
  rewrite (bind_ok _ _ _ _ _ (get_queue_ok _ _ Hq)). rewrite Hsz.
  replace (INT_MAX =? 0) with false by reflexivity.
  replace (INT_MAX =? 1) with false by reflexivity. cbv iota.
  match goal with |- (?br ≫= ?k) s = RUB => assert (Hbr : keeps_queue br) end.
  { repeat first
      [ apply keeps_queue_get_queue | apply keeps_queue_get_next
      | apply keeps_queue_set_next | apply keeps_queue_set_prev
      | apply keeps_queue_bind | match goal with |- forall _, _ => intro end ]. }
  destruct (Hbr s) as [Hr|(u & s1 & Hr & _ & Hq1)]; [by apply bind_ub|].
  rewrite (bind_ok _ _ _ _ _ Hr).
  rewrite (bind_ok _ _ _ _ _ (get_queue_ok s1 q ltac:(congruence))).
  rewrite Hsz, Z.eqb_refl. reflexivity.
Qed.

(** X2, witness. *)
Lemma add_size_overflow_witness :
  add (Ptr 1) (mk_state {[0%nat := OQueue (mk_queue (Ptr 1) INT_MAX Indet);
                          1%nat := ONode (mk_uthread 3 1 Null (Ptr 1) (Ptr 1))]} [] (Some 1) (Ptr 0) []) = RUB.
Proof.
  apply (add_size_overflow _ (mk_queue (Ptr 1) INT_MAX Indet)); reflexivity.
Defined.

(** X3: on a ring holding a single record [x], [get_priority_thread] returns [x] and sets [head] to NULL and [size] to 0, keeping [active] and every other object. *)
Theorem get_priority_thread_last s x fuel :
  ring s [x] ->
  exists q, queue_of s = Some q /\
    get_priority_thread fuel s =
      ROk (Ptr x) (set_heap (qset (thread_queue s) (heap s) (mk_queue Null 0 (active q))) s).
Proof.
  intros (q & Hq & Hsz & _ & Hhd & _). exists q. split; [done|].
  unfold get_priority_thread.
  step get_queue_ok by exact Hq.
  replace (size q =? 0) with false by (rewrite Hsz; reflexivity).
  replace (size q =? 1) with true by (rewrite Hsz; reflexivity). cbv iota.
  step get_queue_ok by exact Hq.
  step set_head_ok by exact Hq.
  step set_size_ok by (rewrite queue_of_set_heap; apply queue_at_qset; exists q; exact Hq).
  rewrite qset_qset, Hhd. reflexivity.
Qed.

(** X3, witness. *)
Lemma get_priority_thread_last_witness :
  ring one_running_state [1%nat] /\
  exists q, queue_of one_running_state = Some q /\
    get_priority_thread 3 one_running_state =
      ROk (Ptr 1) (set_heap (qset (thread_queue one_running_state) (heap one_running_state)
                               (mk_queue Null 0 (active q))) one_running_state).
Proof.
  assert (Hr : ring one_running_state [1%nat]) by ring_conc.
  split; [exact Hr|]. apply (get_priority_thread_last _ 1%nat 3 Hr).
Defined.

(** X4: when its three allocations succeed and the guard is free, [uthread_create] returns 0 and appends a new record [t] to the ring; [t], its context [c] and its stack [sp] are new allocations; the record holds the given priority and function and points to [c]; [c] holds [sp], STACK_SIZE and the entry [func]; the guard is given back; the other records keep their priority and context. *)
Theorem uthread_create_ok s f prio P v :
  ring s P -> lock s = Some v -> 0 < v -> Z.of_nat (length P) < INT_MAX ->
  (forall i, (i < 3)%nat -> oom s !! i <> Some true) ->
  exists s' t c sp, uthread_create f prio s = ROk 0 s' /\ ring s' (P ++ [t]) /\
    heap s !! t = None /\ heap s !! c = None /\ heap s !! sp = None /\
    (exists u, node_at (heap s') t = Some u /\ priority u = prio /\ func u = f /\ context u = Ptr c) /\
    heap s' !! c = Some (OCtx (mk_ucontext (Ptr sp) STACK_SIZE (Some f))) /\
    heap s' !! sp = Some OStack /\ lock s' = lock s /\
    (forall y, y <> t -> prio_of (heap s') y = prio_of (heap s) y /\ ctx_of (heap s') y = ctx_of (heap s) y).
Proof.
  intros Hr Hl Hv Hlen Hoom.
  destruct (create_spec s f prio P v Hr Hl Hv Hlen Hoom) as (s' & t & c & sp & H1 & H2 & H3 & H4 & H5 & H6 & H7 & H8 & H9 & H10 & _).
  exists s', t, c, sp. tauto.
Qed.

(** X4, witness. *)
Lemma uthread_create_ok_witness :
  ring two_ready_state [1%nat; 4%nat] /\ lock two_ready_state = Some 1 /\ 0 < 1 /\
  Z.of_nat (length [1%nat; 4%nat]) < INT_MAX /\
  (forall i, (i < 3)%nat -> oom two_ready_state !! i <> Some true) /\
  exists s' t c sp, uthread_create 3 7 two_ready_state = ROk 0 s' /\ ring s' ([1%nat; 4%nat] ++ [t]) /\
    heap two_ready_state !! t = None /\ heap two_ready_state !! c = None /\ heap two_ready_state !! sp = None /\
    (exists u, node_at (heap s') t = Some u /\ priority u = 7 /\ func u = 3%nat /\ context u = Ptr c) /\
    heap s' !! c = Some (OCtx (mk_ucontext (Ptr sp) STACK_SIZE (Some 3%nat))) /\
    heap s' !! sp = Some OStack /\ lock s' = lock two_ready_state /\
    (forall y, y <> t -> prio_of (heap s') y = prio_of (heap two_ready_state) y /\
                        ctx_of (heap s') y = ctx_of (heap two_ready_state) y).
Proof.
  assert (Hr : ring two_ready_state [1%nat; 4%nat]) by ring_conc.
  assert (Hl : lock two_ready_state = Some 1) by (vm_compute; reflexivity).
  assert (Hv : 0 < 1) by lia.
  assert (Hlen : Z.of_nat (length [1%nat; 4%nat]) < INT_MAX) by (vm_compute; reflexivity).
  assert (Ho : forall i, (i < 3)%nat -> oom two_ready_state !! i <> Some true).
  { intros i _. assert (E : oom two_ready_state = []) by (vm_compute; reflexivity).
    rewrite E, lookup_nil. discriminate. }
  split; [exact Hr|]. split; [exact Hl|]. split; [exact Hv|]. split; [exact Hlen|]. split; [exact Ho|].
  apply (uthread_create_ok two_ready_state 3%nat 7 [1%nat; 4%nat] 1 Hr Hl Hv Hlen Ho).
Defined.

(** X5: when the malloc of the record returns NULL, [uthread_create] returns -1 and changes neither the heap, nor the guard, nor the queue. *)
Theorem uthread_create_record_oom f prio s l :
  oom s = true :: l ->
  uthread_create f prio s = ROk (-1) (mk_state (heap s) l (lock s) (thread_queue s) (swaps s)).
Proof. intros H. unfold uthread_create. rewrite (bind_ok _ _ _ _ _ (malloc_null _ _ _ H)). reflexivity. Qed.

(** X5, witness. *)
Lemma uthread_create_record_oom_witness :
  oom (mk_state (heap two_ready_state) [true] (Some 1) (thread_queue two_ready_state) []) = true :: [] /\
  uthread_create 3 7 (mk_state (heap two_ready_state) [true] (Some 1) (thread_queue two_ready_state) []) =
    ROk (-1) (mk_state (heap two_ready_state) [] (Some 1) (thread_queue two_ready_state) []).
Proof.
  split; [reflexivity|].
  exact (uthread_create_record_oom 3%nat 7 (mk_state (heap two_ready_state) [true] (Some 1) (thread_queue two_ready_state) []) [] eq_refl).
Defined.

(** X6: when the record is allocated but the malloc of its context returns NULL, [uthread_create] returns -1 and leaks the record: it stays allocated with its priority, its function and a NULL context, is not linked into the ring, and the guard is not touched. *)
Theorem uthread_create_context_oom f prio s P l :
  ring s P -> oom s = false :: true :: l ->
  exists s', uthread_create f prio s = ROk (-1) s' /\
    heap s !! fresh_addr s = None /\
    heap s' = <[fresh_addr s := ONode (mk_uthread prio f Null Indet Indet)]> (heap s) /\
    ring s' P /\ lock s' = lock s /\ thread_queue s' = thread_queue s.
Proof.
  intros Hr Ho. unfold uthread_create.
  step malloc_ok by (rewrite Ho; discriminate). sn.
  pose proof (fresh_addr_none s) as Ht. set (t := fresh_addr s) in *. cbv iota beta.
  step set_priority_ok' by (cbn [heap set_heap]; lk; reflexivity). sn.
  step set_func_ok by (cbn [heap set_heap]; lk; reflexivity). sn.
  step malloc_null by (cbn [oom]; rewrite Ho; reflexivity). sn.
  step set_context_ok by (cbn [heap set_heap]; lk; reflexivity). sn.
  step get_context_ok' by (cbn [heap set_heap]; lk; reflexivity). sn.
  cbv iota. rewrite ret_ok. eexists. split; [reflexivity|].
  unfold set_heap. cbn [heap lock thread_queue]. rewrite !insert_insert_eq.
  split; [exact Ht|]. split; [reflexivity|]. split; [|done].
  eapply ring_insert_fresh; [exact Hr|exact Ht|reflexivity|reflexivity].
Qed.

(** X6, witness. *)
Lemma uthread_create_context_oom_witness :
  ring (mk_state (heap two_ready_state) [false; true] (Some 1) (thread_queue two_ready_state) []) [1%nat; 4%nat] /\
  oom (mk_state (heap two_ready_state) [false; true] (Some 1) (thread_queue two_ready_state) []) = false :: true :: [] /\
  exists s', uthread_create 3 7 (mk_state (heap two_ready_state) [false; true] (Some 1) (thread_queue two_ready_state) []) = ROk (-1) s' /\
    heap two_ready_state !! fresh_addr (mk_state (heap two_ready_state) [false; true] (Some 1) (thread_queue two_ready_state) []) = None /\
    heap s' = <[fresh_addr (mk_state (heap two_ready_state) [false; true] (Some 1) (thread_queue two_ready_state) []) :=
                 ONode (mk_uthread 7 3 Null Indet Indet)]> (heap two_ready_state) /\
    ring s' [1%nat; 4%nat] /\ lock s' = Some 1 /\ thread_queue s' = thread_queue two_ready_state.
Proof.
  assert (Hr : ring (mk_state (heap two_ready_state) [false; true] (Some 1) (thread_queue two_ready_state) []) [1%nat; 4%nat])
    by ring_conc.
  split; [exact Hr|]. split; [reflexivity|].
  apply (uthread_create_context_oom 3%nat 7 _ [1%nat; 4%nat] [] Hr). reflexivity.
Defined.

(** X7: two successive successful [uthread_create] calls append their records to the ring in call order, each with its own priority, and leave the guard as it was. *)
Theorem uthread_create_twice s f1 p1 f2 p2 P v :
  ring s P -> lock s = Some v -> 0 < v -> Z.of_nat (length P) + 1 < INT_MAX ->
  (forall i, (i < 6)%nat -> oom s !! i <> Some true) ->
  exists s' t1 t2, (_ ← uthread_create f1 p1; uthread_create f2 p2) s = ROk 0 s' /\
    ring s' (P ++ [t1; t2]) /\ prio_of (heap s') t1 = p1 /\ prio_of (heap s') t2 = p2 /\
    lock s' = lock s.
Proof.
  intros Hr Hl Hv Hlen Hoom.
  destruct (create_spec s f1 p1 P v Hr Hl Hv ltac:(lia) ltac:(intros i Hi; apply Hoom; lia))
    as (s1 & t1 & c1 & sp1 & E1 & Hr1 & _ & _ & _ & (u1 & Hu1 & Hp1 & _) & _ & _ & Hl1 & _ & Ho1).
  destruct (create_spec s1 f2 p2 (P ++ [t1]) v Hr1 ltac:(congruence) Hv
             ltac:(rewrite length_app; simpl; lia)
             ltac:(intros i Hi; rewrite Ho1, lookup_drop; apply Hoom; lia))
    as (s2 & t2 & c2 & sp2 & E2 & Hr2 & Ht2 & _ & _ & (u2 & Hu2 & Hp2 & _) & _ & _ & Hl2 & Hfr & _).
  exists s2, t1, t2. rewrite (bind_ok _ _ _ _ _ E1). split; [exact E2|].
  split; [by rewrite <- app_assoc in Hr2|].
  assert (Hne : t1 <> t2) by (intros ->; unfold node_at in Hu1; rewrite Ht2 in Hu1; discriminate).
  split; [rewrite (proj1 (Hfr t1 Hne)); unfold prio_of; rewrite Hu1; exact Hp1|].
  split; [unfold prio_of; rewrite Hu2; exact Hp2|]. congruence.
Qed.

(** X7, witness. *)
Lemma uthread_create_twice_witness :
  ring init_done [] /\ lock init_done = Some 1 /\ 0 < 1 /\ Z.of_nat (length (@nil nat)) + 1 < INT_MAX /\
  (forall i, (i < 6)%nat -> oom init_done !! i <> Some true) /\
  exists s' t1 t2, (_ ← uthread_create 1 9; uthread_create 2 5) init_done = ROk 0 s' /\
    ring s' ([] ++ [t1; t2]) /\ prio_of (heap s') t1 = 9 /\ prio_of (heap s') t2 = 5 /\
    lock s' = lock init_done.
Proof.
  assert (Hr : ring init_done []) by ring_conc.
  assert (Hl : lock init_done = Some 1) by (vm_compute; reflexivity).
  assert (Hv : 0 < 1) by lia.
  assert (Hlen : Z.of_nat (length (@nil nat)) + 1 < INT_MAX) by (vm_compute; reflexivity).
  assert (Ho : forall i, (i < 6)%nat -> oom init_done !! i <> Some true).
  { intros i _. assert (E : oom init_done = []) by (vm_compute; reflexivity).
    rewrite E, lookup_nil. discriminate. }
  split; [exact Hr|]. split; [exact Hl|]. split; [exact Hv|]. split; [exact Hlen|]. split; [exact Ho|].
  apply (uthread_create_twice init_done 1%nat 9 2%nat 5 [] 1 Hr Hl Hv Hlen Ho).
Defined.

(** X8: when its allocation succeeds, [system_init] points [thread_queue] to a new queue object with [size] 0, which makes an empty ring, and sets the guard to 1; nothing else in the heap changes. *)
Theorem system_init_ok s :
  (forall l, oom s <> true :: l) ->
  exists s', system_init s = ROk tt s' /\
    heap s !! fresh_addr s = None /\ thread_queue s' = Ptr (fresh_addr s) /\
    heap s' = <[fresh_addr s := OQueue (mk_queue Indet 0 Indet)]> (heap s) /\
    ring s' [] /\ lock s' = Some 1.
Proof.
  intros Ho. unfold system_init.
  step malloc_ok by exact Ho.
  erewrite bind_ok; [|reflexivity]. cbv beta.
  step set_size_ok by (unfold queue_of, queue_at, set_thread_queue; cbn [heap thread_queue]; lk; reflexivity).
  unfold sem_init. eexists. split; [reflexivity|].
  split; [apply fresh_addr_none|]. split; [reflexivity|].
  unfold set_lock, set_heap, set_thread_queue, qset. cbn [heap thread_queue lock].
  rewrite insert_insert_eq. split; [reflexivity|]. split; [|reflexivity].
  exists (mk_queue Indet 0 Indet). unfold queue_of, queue_at. cbn [heap thread_queue].
  lk. repeat split. constructor.
Qed.

(** X8, witness. *)
Lemma system_init_ok_witness :
  (forall l, oom init_state <> true :: l) /\
  exists s', system_init init_state = ROk tt s' /\
    heap init_state !! fresh_addr init_state = None /\ thread_queue s' = Ptr (fresh_addr init_state) /\
    heap s' = <[fresh_addr init_state := OQueue (mk_queue Indet 0 Indet)]> (heap init_state) /\
    ring s' [] /\ lock s' = Some 1.
Proof.
  assert (Ho : forall l, oom init_state <> true :: l) by (intros l E; discriminate E).
  split; [exact Ho|]. apply (system_init_ok init_state Ho).
Defined.

(** X9: when the malloc of the queue returns NULL, [system_init] is undefined behaviour: it writes [size] through the NULL pointer. *)
Theorem system_init_oom s l : oom s = true :: l -> system_init s = RUB.
Proof.
  intros H. unfold system_init. rewrite (bind_ok _ _ _ _ _ (malloc_null _ _ _ H)).
  erewrite bind_ok; [|reflexivity]. cbv beta. reflexivity.
Qed.

(** X9, witness. *)
Lemma system_init_oom_witness :
  oom (mk_state ∅ [true] None Null []) = true :: [] /\ system_init (mk_state ∅ [true] None Null []) = RUB.
Proof. split; [reflexivity|]. apply (system_init_oom _ []). reflexivity. Defined.
